(** * Redlock: a quorum lock over independent Redis peers

    Shallow embedding of [redlock/__init__.py].  The Python code talks to
    the outside world (Redis peers, the wall clock, the random generator,
    [time.sleep]); every such call is an entry of a trace, and the answers
    come from an environment that may depend on the whole history, so that
    the theorems hold for every behaviour of peers, clock and generator. *)

From Stdlib Require Import ZArith QArith List String Ascii Bool Lia.
From stdpp Require Import base gmap list strings.
Import ListNotations.

Local Open Scope string_scope.
Local Open Scope list_scope.
Local Open Scope Z_scope.

(** ** Python values and exceptions *)

(** The values a peer call can hand back ([server.set] answers [True] or
    [None]; [server.eval] answers an integer). *)
Inductive pyval :=
| PyNone
| PyBool (b : bool)
| PyInt (z : Z)
| PyStr (s : string).

(** Python truthiness, as used by [if self.lock_instance(...)] and
    [if not server.set(...)]. *)
Definition truthy (v : pyval) : bool :=
  match v with
  | PyNone => false
  | PyBool b => b
  | PyInt z => negb (z =? 0)
  | PyStr s => negb (String.eqb s EmptyString)
  end.

(** Exceptions.  [Warning] and [CannotObtainLock] are raised by the module
    itself, [ValueError] by [time.sleep] and by [from_url], [TypeError] by a
    constructor called with a keyword it does not know, [OverflowError] by
    the conversion of an integer to a float and by [time.sleep]; the other
    three are the errors of the Redis client: [ConnectionError] (no
    connection, or the connection broke), [TimeoutError] (no reply arrived
    in time) and [ResponseError] (the peer answered with an error). *)
Inductive exn :=
| Warning (msg : string)
| CannotObtainLock (msg : string)
| ValueError (msg : string)
| TypeError (msg : string)
| OverflowError (msg : string)
| ConnectionError (msg : string)
| TimeoutError (msg : string)
| ResponseError (msg : string).

(** [str(e)] *)
Definition exn_str (e : exn) : string :=
  match e with
  | Warning m | CannotObtainLock m | ValueError m | TypeError m
  | OverflowError m | ConnectionError m | TimeoutError m | ResponseError m => m
  end.

Inductive outcome (A : Type) :=
| Ret (a : A)
| Raise (e : exn).
Arguments Ret {A} a.
Arguments Raise {A} e.

(** ** Floats

    A Python [float] is an IEEE 754 binary64 number.  A finite one is
    [mant * 2 ^ expo] with a mantissa of 53 bits at most.  Line 79 of the
    module multiplies an [int] by the float [0.01] and truncates the
    product; the three operations are modelled on exact integers. *)
Record pyfloat := MkFloat { mant : Z; expo : Z }.

(** Rounding of the exact number [m * 2 ^ e] to 53 bits, to the nearest
    float, a tie going to the even mantissa.  (No bound on the exponent:
    [float_of_int] checks the upper one, and the product of a non-zero
    integer with [0.01] is far above the lower one.) *)
Definition round53 (m e : Z) : pyfloat :=
  let d := Z.log2 (Z.abs m) - 52 in
  if d <=? 0 then MkFloat m e
  else
    let q := Z.abs m / 2 ^ d in
    let r := Z.abs m mod 2 ^ d in
    let half := 2 ^ (d - 1) in
    let up := (half <? r) || ((r =? half) && Z.odd q) in
    MkFloat (Z.sgn m * (if up then q + 1 else q)) (e + d).

(** [float(z)], the conversion that [z * 0.01] applies to the integer
    [z]: correctly rounded, and an [OverflowError] when the result is not
    below [2 ^ 1024]. *)
Definition float_of_int (z : Z) : outcome pyfloat :=
  let f := round53 z 0 in
  if 2 ^ 1024 <=? Z.abs (mant f) * 2 ^ expo f
  then Raise (OverflowError "int too large to convert to float")
  else Ret f.

(** The product of two floats, rounded. *)
Definition float_mul (a b : pyfloat) : pyfloat :=
  round53 (mant a * mant b) (expo a + expo b).

(** [int(x)] on a float: truncation toward zero. *)
Definition int_of_float (f : pyfloat) : Z :=
  if 0 <=? expo f then mant f * 2 ^ expo f
  else Z.quot (mant f) (2 ^ (- expo f)).

(** [- x] *)
Definition fneg (f : pyfloat) : pyfloat := MkFloat (- mant f) (expo f).

(** ** Peers *)

(** A connection descriptor: a URL string or a dict of keyword options. *)
Inductive connection_info :=
| ConnUrl (url : string)
| ConnKwargs (kwargs : list (string * pyval)).

(** The client object [redis.StrictRedis] for one endpoint. *)
Record Server := StrictRedis { endpoint : connection_info }.

#[global] Instance pyval_eq_dec : EqDecision pyval.
Proof. solve_decision. Defined.
#[global] Instance connection_info_eq_dec : EqDecision connection_info.
Proof. solve_decision. Defined.
#[global] Instance Server_eq_dec : EqDecision Server.
Proof. solve_decision. Defined.
#[global] Instance exn_eq_dec : EqDecision exn.
Proof. solve_decision. Defined.

(** The Lua script of [unlock_script], parsed:
<<
    if redis.call("get",KEYS[1]) == ARGV[1] then
        return redis.call("del",KEYS[1])
    else
        return 0
    end
>> *)
Inductive lua_expr :=
| LKeys (i : nat)
| LArgv (i : nat)
| LNum (z : Z)
| LCall (cmd : string) (arg : lua_expr)
| LEq (a b : lua_expr).

Inductive lua_stmt :=
| LReturn (e : lua_expr)
| LIf (c : lua_expr) (t e : lua_stmt).

Definition unlock_script : lua_stmt :=
  LIf (LEq (LCall "get" (LKeys 1)) (LArgv 1))
      (LReturn (LCall "del" (LKeys 1)))
      (LReturn (LNum 0)).

(** [nx=True] or [xx=True] of [server.set]. *)
Inductive set_mode := NX | XX.

(** ** The trace of calls to the outside world *)

Inductive Event :=
| EvChoice (c : ascii)                       (* random.choice(CHARACTERS) *)
| EvTime (ms : Z)                            (* int(time.time() * 1000) *)
| EvSleep (seconds : Q)                      (* time.sleep(seconds) *)
| EvSet (server : Server) (key val : string) (mode : set_mode) (px : Z)
        (r : outcome pyval)                  (* server.set(key, val, nx/xx, px) *)
| EvEval (server : Server) (script : lua_stmt) (numkeys : Z)
         (args : list string) (r : outcome pyval)
                                             (* server.eval(script, numkeys, args...) *)
| EvWait (timeout : Q) (signalled : bool).   (* event.wait(timeout) *)

(** What one acquisition attempt computed (lines 82-88); kept beside the
    trace so that statements can speak about "the attempts of a call". *)
Record Attempt := MkAttempt {
  token : string;
  n : Z;
  elapsed_time : Z;
  att_validity : Z }.

Record World := MkWorld {
  trace : list Event;
  attempts : list Attempt }.

(** The environment: how the outside world answers, given the history. *)
Record Env := MkEnv {
  (* redis.StrictRedis.from_url(url) *)
  from_url : string -> outcome Server;
  (* redis.StrictRedis built from a dict of keyword options *)
  strict_redis : list (string * pyval) -> outcome Server;
  server_set : list Event -> Server -> string -> string -> set_mode -> Z -> outcome pyval;
  server_eval : list Event -> Server -> lua_stmt -> Z -> list string -> outcome pyval;
  (* the reading int(time.time() * 1000) *)
  time_ms : list Event -> Z;
  (* time.sleep(seconds): it returns, or refuses the length *)
  time_sleep : Q -> outcome unit;
  (* the position random.choice picks *)
  random_index : list Event -> nat }.

(** ** A state and exception monad for the method bodies *)

Definition M (A : Type) : Type := World -> outcome A * World.

Definition ret {A} (a : A) : M A := fun w => (Ret a, w).
Definition bind {A B} (m : M A) (k : A -> M B) : M B :=
  fun w => match m w with
           | (Ret a, w') => k a w'
           | (Raise e, w') => (Raise e, w')
           end.
(** [try: m  except: h] with a bare [except], which catches everything. *)
Definition try_except {A} (m : M A) (h : M A) : M A :=
  fun w => match m w with
           | (Ret a, w') => (Ret a, w')
           | (Raise _, w') => h w'
           end.

Notation "x <- m ;; k" := (bind m (fun x => k))
  (at level 100, m at next level, right associativity).
Notation "m ;;; k" := (bind m (fun _ => k))
  (at level 100, right associativity).

(** A computation that touches nothing outside: it returns or raises. *)
Definition of_outcome {A} (r : outcome A) : M A := fun w => (r, w).

Definition note_attempt (a : Attempt) : M unit :=
  fun w => (Ret tt, MkWorld (trace w) (attempts w ++ [a])).

Section Program.
Variable env : Env.

(** [int(time.time() * 1000)] *)
Definition now_ms : M Z :=
  fun w => let t := time_ms env (trace w) in
           (Ret t, MkWorld (trace w ++ [EvTime t]) (attempts w)).

(** [time.sleep(seconds)] *)
Definition sleep (seconds : Q) : M unit :=
  fun w => (time_sleep env seconds,
            MkWorld (trace w ++ [EvSleep seconds]) (attempts w)).

(** [server.set(key, val, nx=True / xx=True, px=px)] *)
Definition redis_set (server : Server) (key val : string) (mode : set_mode)
    (px : Z) : M pyval :=
  fun w => let r := server_set env (trace w) server key val mode px in
           (r, MkWorld (trace w ++ [EvSet server key val mode px r]) (attempts w)).

(** [server.eval(script, numkeys, args...)] *)
Definition redis_eval (server : Server) (script : lua_stmt) (numkeys : Z)
    (args : list string) : M pyval :=
  fun w => let r := server_eval env (trace w) server script numkeys args in
           (r, MkWorld (trace w ++ [EvEval server script numkeys args r]) (attempts w)).

(** [string.ascii_letters + string.digits] *)
Definition CHARACTERS : string :=
  "abcdefghijklmnopqrstuvwxyzABCDEFGHIJKLMNOPQRSTUVWXYZ0123456789".

(** [random.choice(seq)] on a non-empty string. *)
Definition random_choice (seq : string) : M ascii :=
  fun w => let i := (random_index env (trace w) mod String.length seq)%nat in
           let c := match String.get i seq with Some c => c | None => "000"%char end in
           (Ret c, MkWorld (trace w ++ [EvChoice c]) (attempts w)).

(** ** class Redlock *)

Record Lock := MkLock {
  validity : Z;
  resource : string;
  key : string }.

Record Redlock := MkRedlock {
  servers : list Server;
  quorum : Z;
  retry_count : Z;
  retry_delay : Q }.

Definition default_retry_count : Z := 3.
Definition default_retry_delay : Q := 2 # 10.
(** The literal [0.01]: the float nearest to 1/100 (lemma
    [clock_drift_factor_nearest]). *)
Definition clock_drift_factor : pyfloat := MkFloat 5764607523034235 (-59).

(** Lines 41-44: a string goes to [from_url], a dict to the constructor. *)
Definition new_server (connection_info : connection_info) : outcome Server :=
  match connection_info with
  | ConnUrl url => from_url env url
  | ConnKwargs kwargs => strict_redis env kwargs
  end.

(** The loop of [__init__] (lines 39-47): the first descriptor whose client
    cannot be built ends the constructor with [Warning(str(e))]. *)
Fixpoint connect_all (connection_list : list connection_info)
    (acc : list Server) : outcome (list Server) :=
  match connection_list with
  | [] => Ret acc
  | connection_info :: rest =>
      match new_server connection_info with
      | Ret server => connect_all rest (acc ++ [server])
      | Raise e => Raise (Warning (exn_str e))
      end
  end.

(** [x or default] on an optional integer argument. *)
Definition or_Z (x : option Z) (default : Z) : Z :=
  match x with
  | None => default
  | Some v => if v =? 0 then default else v
  end.

(** [x or default] on an optional number. *)
Definition or_Q (x : option Q) (default : Q) : Q :=
  match x with
  | None => default
  | Some v => if Qeq_bool v 0 then default else v
  end.

(** [Redlock.__init__] *)
Definition init (connection_list : list connection_info)
    (retry_count : option Z) (retry_delay : option Q) : outcome Redlock :=
  match connect_all connection_list [] with
  | Raise e => Raise e
  | Ret servers =>
      let quorum := Z.of_nat (length connection_list) / 2 + 1 in
      if Z.of_nat (length servers) <? quorum then
        Raise (CannotObtainLock "Failed to connect to the majority of redis servers")
      else
        Ret (MkRedlock servers quorum
               (or_Z retry_count default_retry_count)
               (or_Q retry_delay default_retry_delay))
  end.

(** [Redlock.lock_instance] *)
Definition lock_instance (server : Server) (resource val : string) (ttl : Z)
    : M pyval :=
  try_except (redis_set server resource val NX ttl)
             (ret (PyBool false)).

(** [Redlock.unlock_instance] *)
Definition unlock_instance (server : Server) (resource val : string) : M unit :=
  try_except (redis_eval server unlock_script 1 [resource; val] ;;; ret tt)
             (ret tt).

(** [''.join(random.choice(CHARACTERS) for _ in range(k))] *)
Fixpoint random_string (k : nat) : M string :=
  match k with
  | O => ret EmptyString
  | S k' => c <- random_choice CHARACTERS ;;
            s <- random_string k' ;;
            ret (String c s)
  end.

(** [Redlock.get_unique_id] *)
Definition get_unique_id : M string := random_string 22.

(** Lines 84-86: the fan-out, counting the peers that accepted the set. *)
Fixpoint lock_servers (servers : list Server) (resource val : string)
    (ttl : Z) (n : Z) : M Z :=
  match servers with
  | [] => ret n
  | server :: rest =>
      r <- lock_instance server resource val ttl ;;
      lock_servers rest resource val ttl (if truthy r then n + 1 else n)
  end.

(** Lines 92-93 (and the body of [unlock]): release on every peer. *)
Fixpoint unlock_servers (servers : list Server) (resource val : string)
    : M unit :=
  match servers with
  | [] => ret tt
  | server :: rest =>
      unlock_instance server resource val ;;;
      unlock_servers rest resource val
  end.

(** Lines 82-88: one attempt, up to the computation of [validity].
    [note_attempt] records what was computed and touches nothing else. *)
Definition lock_attempt (self : Redlock) (resource : string) (ttl : Z)
    (val : string) (drift : Z) : M (Z * Z) :=
  start_time <- now_ms ;;
  n <- lock_servers (servers self) resource val ttl 0 ;;
  end_time <- now_ms ;;
  let elapsed_time := end_time - start_time in
  let validity := ttl - elapsed_time - drift in
  note_attempt (MkAttempt val n elapsed_time validity) ;;;
  ret (n, validity).

(** Lines 92-95: the [else] branch of a failed attempt. *)
Definition lock_cleanup (self : Redlock) (resource val : string) : M unit :=
  unlock_servers (servers self) resource val ;;;
  sleep (retry_delay self).

(** Lines 82-95: the body of the loop.  [Some lock] is the [return] of
    line 90; [None] means that the round failed, was cleaned up and slept,
    and that the loop goes on. *)
Definition lock_round (self : Redlock) (resource : string) (ttl : Z)
    (val : string) (drift : Z) : M (option Lock) :=
  a <- lock_attempt self resource ttl val drift ;;
  let '(n, validity) := a in
  if (validity >? 0) && (n >=? quorum self) then
    ret (Some (MkLock validity resource val))
  else
    lock_cleanup self resource val ;;;
    ret None.

(** Lines 81-96: [while retry < self.retry_count].  [retry] grows by one in
    each round, so [retry_count - retry] rounds are enough fuel: with that
    much, the test is false once the fuel is used up, and the branch for
    fuel 0 is never taken (lemma [lock_while_fuel]). *)
Fixpoint lock_while (fuel : nat) (self : Redlock) (resource : string)
    (ttl : Z) (val : string) (drift : Z) (retry : Z) : M (option Lock) :=
  if retry <? retry_count self then
    match fuel with
    | O => ret None
    | S fuel' =>
        r <- lock_round self resource ttl val drift ;;
        match r with
        | Some lock => ret (Some lock)
        | None => lock_while fuel' self resource ttl val drift (retry + 1)
        end
    end
  else ret None.

(** Line 79: [int(ttl * self.clock_drift_factor) + 2], for a [ttl] that is
    an [int], a whole number of milliseconds.  The product converts [ttl]
    to a float, which raises when [ttl] is out of the range of the format,
    and rounds; [int] truncates. *)
Definition lock_drift (ttl : Z) : outcome Z :=
  match float_of_int ttl with
  | Ret f => Ret (int_of_float (float_mul f clock_drift_factor) + 2)
  | Raise e => Raise e
  end.

(** [Redlock.lock]; [None] is the Python [False]. *)
Definition lock (self : Redlock) (resource : string) (ttl : Z)
    : M (option Lock) :=
  let retry := 0 in
  val <- get_unique_id ;;
  drift <- of_outcome (lock_drift ttl) ;;
  lock_while (Z.to_nat (retry_count self - retry)) self resource ttl val drift retry.

(** [Redlock.unlock] *)
Definition unlock (self : Redlock) (lock : Lock) : M unit :=
  unlock_servers (servers self) (resource lock) (key lock).

End Program.

Arguments validity : simpl never.

(** ** class ExpiryExtendingRedlock: the lease extender

    [extend_expiry_loop] runs in a thread of its own.  The loop is cut at
    the points where it touches the shared [threading.Event] or a peer; a
    step is one such action, and a schedule says which thread moves next. *)

Module Extender.

(** Where a renewal loop stands. *)
Inductive loop_pc :=
| AtTest      (* line 111: while not self.event.is_set() *)
| AtWait      (* line 112: self.event.wait((ttl / 1000) - 5) *)
| AtRenew     (* lines 113-114: server.set(resource, val, xx=True, px=ttl) *)
| AtSignal    (* lines 117 and 119: self.event.set() *)
| Finished.   (* the loop has ended, the thread is no longer alive *)

(** A thread running [extend_expiry_loop(server, resource, val, ttl)]. *)
Record Thread := MkThread {
  th_server : Server;
  th_resource : string;
  th_val : string;
  th_ttl : Z;
  pc : loop_pc }.

(** [(ttl / 1000) - 5], with the division of Python 3. *)
Definition wait_timeout (ttl : Z) : Q := (inject_Z ttl / 1000 - 5)%Q.

(** The manager and its threads. *)
Record Sys := MkSys {
  event : bool;                      (* the flag of self.event *)
  threads : list Thread;             (* every thread started so far *)
  expiry_extender : option nat;      (* self.expiry_extender, a position in [threads] *)
  sys_trace : list Event }.

Definition set_pc (t : Thread) (p : loop_pc) : Thread :=
  MkThread (th_server t) (th_resource t) (th_val t) (th_ttl t) p.

(** One action of the loop of [extend_expiry_loop].  [event.wait] returns
    when the flag is set or when the timeout has passed, whichever comes
    first; its entry in the trace records the flag it returned. *)
Definition loop_step (env : Env) (t : Thread) (flag : bool) (tr : list Event)
    : Thread * bool * list Event :=
  match pc t with
  | AtTest => (set_pc t (if flag then Finished else AtWait), flag, tr)
  | AtWait => (set_pc t AtRenew, flag, tr ++ [EvWait (wait_timeout (th_ttl t)) flag])
  | AtRenew =>
      let r := server_set env tr (th_server t) (th_resource t) (th_val t) XX (th_ttl t) in
      let next := match r with
                  | Ret v => if truthy v then AtTest else AtSignal
                  | Raise _ => AtSignal
                  end in
      (set_pc t next, flag,
       tr ++ [EvSet (th_server t) (th_resource t) (th_val t) XX (th_ttl t) r])
  | AtSignal => (set_pc t AtTest, true, tr)
  | Finished => (t, flag, tr)
  end.

(** The loop on its own, with nobody else touching the flag. *)
Fixpoint loop_steps (env : Env) (k : nat) (t : Thread) (flag : bool)
    (tr : list Event) : Thread * bool * list Event :=
  match k with
  | O => (t, flag, tr)
  | S k' => let '(t', flag', tr') := loop_step env t flag tr in
            loop_steps env k' t' flag' tr'
  end.

(** The caller's side, one action each. *)
Inductive main_op :=
| Start (server : Server) (resource val : string) (ttl : Z)
                  (* start_expiry_extender: lines 131-132 *)
| StopSet         (* line 123: self.event.set() *)
| StopJoin        (* lines 124-125: join the extender if there is a live one *)
| StopClear.      (* line 126: self.event.clear() *)

(** [stop_expiry_extender] *)
Definition stop_expiry_extender : list main_op := [StopSet; StopJoin; StopClear].

(** [start_expiry_extender(server, resource, val, ttl)] *)
Definition start_expiry_extender (server : Server) (resource val : string)
    (ttl : Z) : list main_op := [Start server resource val ttl].

Definition is_alive (s : Sys) (i : nat) : bool :=
  match nth_error (threads s) i with
  | Some t => match pc t with Finished => false | _ => true end
  | None => false
  end.

(** One action of the caller; [None] while [join] blocks. *)
Definition main_step (op : main_op) (s : Sys) : option Sys :=
  match op with
  | Start server resource val ttl =>
      Some (MkSys (event s)
                  (threads s ++ [MkThread server resource val ttl AtTest])
                  (Some (length (threads s)))
                  (sys_trace s))
  | StopSet => Some (MkSys true (threads s) (expiry_extender s) (sys_trace s))
  | StopJoin =>
      match expiry_extender s with
      | None => Some s
      | Some i => if is_alive s i then None else Some s
      end
  | StopClear => Some (MkSys false (threads s) (expiry_extender s) (sys_trace s))
  end.

Inductive tid := Main | Worker (i : nat).

Fixpoint replace_nth {A} (l : list A) (i : nat) (x : A) : list A :=
  match l, i with
  | [], _ => []
  | _ :: l', O => x :: l'
  | y :: l', S i' => y :: replace_nth l' i' x
  end.

(** One move of the thread [who]; [None] when that thread cannot move. *)
Definition sys_step (env : Env) (who : tid) (s : Sys) (prog : list main_op)
    : option (Sys * list main_op) :=
  match who with
  | Main =>
      match prog with
      | [] => None
      | op :: rest =>
          match main_step op s with
          | Some s' => Some (s', rest)
          | None => None
          end
      end
  | Worker i =>
      match nth_error (threads s) i with
      | None => None
      | Some t =>
          match pc t with
          | Finished => None
          | _ =>
              let '(t', flag', tr') := loop_step env t (event s) (sys_trace s) in
              Some (MkSys flag' (replace_nth (threads s) i t') (expiry_extender s) tr',
                    prog)
          end
      end
  end.

Fixpoint run (env : Env) (sched : list tid) (s : Sys) (prog : list main_op)
    : option (Sys * list main_op) :=
  match sched with
  | [] => Some (s, prog)
  | who :: rest =>
      match sys_step env who s prog with
      | Some (s', prog') => run env rest s' prog'
      | None => None
      end
  end.

End Extender.

Import Extender.

(** ** A Redis peer

    The peer side of the protocol of section 6 of the specification: the
    keyspace maps a key to its value and to the time-to-live it was set
    with.  This keyspace has no clock: it is the peer inside the
    time-to-live of its keys, where only [del] removes one.  (Expiry is
    modelled apart, further down, for the statement that needs it.) *)

Inductive lua_val :=
| LvFalse
| LvTrue
| LvInt (z : Z)
| LvStr (s : string).

#[global] Instance lua_val_eq_dec : EqDecision lua_val.
Proof. solve_decision. Defined.

(** [SET key val NX|XX PX px] on a keyspace. *)
Definition store_set (st : gmap string (string * Z)) (key val : string)
    (mode : set_mode) (px : Z) : pyval * gmap string (string * Z) :=
  match mode, st !! key with
  | NX, None => (PyBool true, <[key := (val, px)]> st)
  | NX, Some _ => (PyNone, st)
  | XX, Some _ => (PyBool true, <[key := (val, px)]> st)
  | XX, None => (PyNone, st)
  end.

(** [redis.call(cmd, arg)] inside a script: [get] and [del]. *)
Definition redis_call (cmd : string) (arg : lua_val)
    (st : gmap string (string * Z)) : lua_val * gmap string (string * Z) :=
  match arg with
  | LvStr k =>
      if String.eqb cmd "get" then
        match st !! k with
        | Some (v, _) => (LvStr v, st)
        | None => (LvFalse, st)
        end
      else if String.eqb cmd "del" then
        match st !! k with
        | Some _ => (LvInt 1, delete k st)
        | None => (LvInt 0, st)
        end
      else (LvFalse, st)
  | _ => (LvFalse, st)
  end.

(** [KEYS[i]] and [ARGV[i]] count from 1. *)
Definition lua_index (l : list string) (i : nat) : lua_val :=
  match i with
  | O => LvFalse
  | S j => match nth_error l j with Some s => LvStr s | None => LvFalse end
  end.

Fixpoint lua_eval (e : lua_expr) (keys argv : list string)
    (st : gmap string (string * Z)) : lua_val * gmap string (string * Z) :=
  match e with
  | LKeys i => (lua_index keys i, st)
  | LArgv i => (lua_index argv i, st)
  | LNum z => (LvInt z, st)
  | LCall cmd arg =>
      let '(a, st1) := lua_eval arg keys argv st in
      redis_call cmd a st1
  | LEq a b =>
      let '(x, st1) := lua_eval a keys argv st in
      let '(y, st2) := lua_eval b keys argv st1 in
      (if decide (x = y) then LvTrue else LvFalse, st2)
  end.

Fixpoint lua_run (s : lua_stmt) (keys argv : list string)
    (st : gmap string (string * Z)) : lua_val * gmap string (string * Z) :=
  match s with
  | LReturn e => lua_eval e keys argv st
  | LIf c t e =>
      let '(b, st1) := lua_eval c keys argv st in
      match b with
      | LvFalse => lua_run e keys argv st1
      | _ => lua_run t keys argv st1
      end
  end.

(** The reply of [EVAL] as the client converts it. *)
Definition lua_reply (v : lua_val) : pyval :=
  match v with
  | LvFalse => PyNone
  | LvTrue => PyInt 1
  | LvInt z => PyInt z
  | LvStr s => PyStr s
  end.

(** A [SET] as the peer executes it; a non-positive expiry is refused. *)
Definition peer_set (st : gmap string (string * Z)) (key val : string)
    (mode : set_mode) (px : Z) : outcome pyval * gmap string (string * Z) :=
  if px <=? 0 then (Raise (ResponseError "invalid expire time in set"), st)
  else let '(v, st') := store_set st key val mode px in (Ret v, st').

(** An [EVAL script numkeys args...] as the peer executes it. *)
Definition peer_eval (st : gmap string (string * Z)) (script : lua_stmt)
    (numkeys : Z) (args : list string)
    : outcome pyval * gmap string (string * Z) :=
  let keys := firstn (Z.to_nat numkeys) args in
  let argv := skipn (Z.to_nat numkeys) args in
  let '(v, st') := lua_run script keys argv st in
  (Ret (lua_reply v), st').

(** A request that the peer answered was executed.  Of a request that
    ended in an exception the client cannot tell: the peer may have refused
    it, the request may have been lost on its way, or only the reply.
    [ran h s] says whether the peer [s] executed the request sent to it
    after the history [h], when that request ended in an exception; the
    statements about keyspaces hold for every [ran]. *)
Definition took_effect (ran : list Event -> Server -> bool) (h : list Event)
    (s : Server) (r : outcome pyval) : bool :=
  match r with
  | Ret _ => true
  | Raise _ => ran h s
  end.

(** What the event [e], issued after the history [h], does to the keyspace
    of [server]. *)
Definition apply_event (ran : list Event -> Server -> bool) (server : Server)
    (h : list Event) (st : gmap string (string * Z)) (e : Event)
    : gmap string (string * Z) :=
  match e with
  | EvSet s key val mode px r =>
      if decide (s = server) then
        if took_effect ran h s r then snd (peer_set st key val mode px) else st
      else st
  | EvEval s script numkeys args r =>
      if decide (s = server) then
        if took_effect ran h s r then snd (peer_eval st script numkeys args) else st
      else st
  | _ => st
  end.

Fixpoint replay (ran : list Event -> Server -> bool) (server : Server)
    (h : list Event) (st : gmap string (string * Z)) (evs : list Event)
    : gmap string (string * Z) :=
  match evs with
  | [] => st
  | e :: rest => replay ran server (h ++ [e]) (apply_event ran server h st e) rest
  end.

(** The keyspace of [server] after the requests of a trace. *)
Definition store_of (ran : list Event -> Server -> bool) (tr : list Event)
    (server : Server) : gmap string (string * Z) :=
  replay ran server [] ∅ tr.

(** What goes wrong with the next request to a peer: nothing; the request
    does not arrive; the request is executed and its reply does not
    arrive. *)
Inductive fault := Healthy | RequestLost | ReplyLost.

(** The requests that peers with the faults [faults] execute. *)
Definition reached (faults : list Event -> Server -> fault) (h : list Event)
    (s : Server) : bool :=
  match faults h s with
  | RequestLost => false
  | Healthy | ReplyLost => true
  end.

Definition faulty (f : fault) (r : outcome pyval) : outcome pyval :=
  match f with
  | Healthy => r
  | RequestLost => Raise (ConnectionError "Connection refused")
  | ReplyLost => Raise (TimeoutError "Timeout reading from socket")
  end.

(** [from_url] refuses a URL without one of the three Redis schemes. *)
Definition redis_from_url (url : string) : outcome Server :=
  if String.prefix "redis://" url || String.prefix "rediss://" url
     || String.prefix "unix://" url
  then Ret (StrictRedis (ConnUrl url))
  else Raise (ValueError "Redis URL must specify one of the following schemes (redis://, rediss://, unix://)").

(** The constructor refuses a keyword that is not one of its options. *)
Definition redis_options : list string :=
  ["host"; "port"; "db"; "password"; "socket_timeout"; "unix_socket_path"].

Definition redis_strict_redis (kwargs : list (string * pyval)) : outcome Server :=
  if forallb (fun kv => bool_decide (fst kv ∈ redis_options)) kwargs
  then Ret (StrictRedis (ConnKwargs kwargs))
  else Raise (TypeError "__init__() got an unexpected keyword argument").

(** [time.sleep] as Python 3 has it: a length that does not fit a signed
    64-bit count of nanoseconds is an [OverflowError], a negative one a
    [ValueError]. *)
Definition py_sleep (seconds : Q) : outcome unit :=
  let ns := (seconds * inject_Z (10 ^ 9))%Q in
  if Qle_bool (inject_Z (2 ^ 63)) ns || negb (Qle_bool (inject_Z (- 2 ^ 63)) ns) then
    Raise (OverflowError "timestamp too large to convert to C _PyTime_t")
  else if Qle_bool 0 seconds then Ret tt
  else Raise (ValueError "sleep length must be non-negative").

(** Redis peers with faults, a clock and a random source. *)
Definition redis_env (faults : list Event -> Server -> fault)
    (clock : list Event -> Z) (rnd : list Event -> nat) : Env :=
  {| from_url := redis_from_url;
     strict_redis := redis_strict_redis;
     server_set := fun tr s key val mode px =>
       faulty (faults tr s)
              (fst (peer_set (store_of (reached faults) tr s) key val mode px));
     server_eval := fun tr s script numkeys args =>
       faulty (faults tr s)
              (fst (peer_eval (store_of (reached faults) tr s) script numkeys args));
     time_ms := clock;
     time_sleep := py_sleep;
     random_index := rnd |}.

(** ** Redis peers with expiry

    Here a key carries the moment at which it expires, by the clock of the
    peer that holds it.  [peer_time h s] is the reading of the clock of the
    peer [s], in milliseconds, at the moment at which the caller has made
    the calls [h]; a request is executed at the moment it is sent (the
    earliest moment possible, which gives a key its earliest expiry). *)

(** What is left of a keyspace at the time [now]. *)
Definition live (now : Z) (st : gmap string (string * Z)) : gmap string (string * Z) :=
  filter (fun kv => now < snd (snd kv)) st.

(** [SET key val NX|XX PX px] at the time [now].  The peer refuses an
    expiry that is not a signed 64-bit integer, one that is not positive, and
    one that leaves the 64 bits when added to the time. *)
Definition timed_set (now : Z) (st : gmap string (string * Z)) (key val : string)
    (mode : set_mode) (px : Z) : outcome pyval * gmap string (string * Z) :=
  if (px <? - 2 ^ 63) || (2 ^ 63 <=? px) then
    (Raise (ResponseError "value is not an integer or out of range"), st)
  else if (px <=? 0) || (2 ^ 63 <=? now + px) then
    (Raise (ResponseError "invalid expire time in set"), st)
  else let '(v, st') := store_set (live now st) key val mode (now + px) in (Ret v, st').

(** [EVAL script numkeys args...] at the time [now]. *)
Definition timed_eval (now : Z) (st : gmap string (string * Z)) (script : lua_stmt)
    (numkeys : Z) (args : list string)
    : outcome pyval * gmap string (string * Z) :=
  peer_eval (live now st) script numkeys args.

Definition timed_apply (ran : list Event -> Server -> bool)
    (peer_time : list Event -> Server -> Z) (server : Server) (h : list Event)
    (st : gmap string (string * Z)) (e : Event) : gmap string (string * Z) :=
  match e with
  | EvSet s key val mode px r =>
      if decide (s = server) then
        if took_effect ran h s r
        then snd (timed_set (peer_time h s) st key val mode px) else st
      else st
  | EvEval s script numkeys args r =>
      if decide (s = server) then
        if took_effect ran h s r
        then snd (timed_eval (peer_time h s) st script numkeys args) else st
      else st
  | _ => st
  end.

Fixpoint timed_replay (ran : list Event -> Server -> bool)
    (peer_time : list Event -> Server -> Z) (server : Server) (h : list Event)
    (st : gmap string (string * Z)) (evs : list Event)
    : gmap string (string * Z) :=
  match evs with
  | [] => st
  | e :: rest =>
      timed_replay ran peer_time server (h ++ [e])
                   (timed_apply ran peer_time server h st e) rest
  end.

(** The keys of [server], with their expiry times, after the requests of a
    trace. *)
Definition timed_store_of (ran : list Event -> Server -> bool)
    (peer_time : list Event -> Server -> Z) (tr : list Event) (server : Server)
    : gmap string (string * Z) :=
  timed_replay ran peer_time server [] ∅ tr.

(** Redis peers that expire their keys. *)
Definition timed_env (faults : list Event -> Server -> fault)
    (peer_time : list Event -> Server -> Z) (clock : list Event -> Z)
    (rnd : list Event -> nat) : Env :=
  {| from_url := redis_from_url;
     strict_redis := redis_strict_redis;
     server_set := fun tr s key val mode px =>
       faulty (faults tr s)
              (fst (timed_set (peer_time tr s)
                      (timed_store_of (reached faults) peer_time tr s) key val mode px));
     server_eval := fun tr s script numkeys args =>
       faulty (faults tr s)
              (fst (timed_eval (peer_time tr s)
                      (timed_store_of (reached faults) peer_time tr s)
                      script numkeys args));
     time_ms := clock;
     time_sleep := py_sleep;
     random_index := rnd |}.

(** At the moment of the history [tr], the peer [s] holds [name] with the
    value [val], and the key has [ms] milliseconds or more to live by the
    clock of [s]. *)
Definition outlives (ran : list Event -> Server -> bool)
    (peer_time : list Event -> Server -> Z) (tr : list Event) (name val : string)
    (ms : Z) (s : Server) : bool :=
  match timed_store_of ran peer_time tr s !! name with
  | Some (v, deadline) => bool_decide (v = val) && (peer_time tr s + ms <=? deadline)
  | None => false
  end.

(** The peers' clocks never run backwards. *)
Definition monotone_peers (peer_time : list Event -> Server -> Z) : Prop :=
  forall tr tr' s, peer_time tr s <= peer_time (tr ++ tr') s.

(** Between two moments, the clock of a peer gains at most 1% and 2 ms on
    what the caller reads from its own. *)
Definition bounded_drift (peer_time : list Event -> Server -> Z)
    (clock : list Event -> Z) : Prop :=
  forall tr tr' s,
    peer_time (tr ++ tr') s - peer_time tr s
    <= (clock (tr ++ tr') - clock tr) + (clock (tr ++ tr') - clock tr) / 100 + 2.

(** The key [name] holds [val] and lasts until [lim] at least. *)
Definition lasting (name val : string) (lim : Z) (st : gmap string (string * Z)) : Prop :=
  exists deadline, st !! name = Some (val, deadline) /\ lim <= deadline.

(** ** Vocabulary of the statements *)

Definition is_set_nx (resource val : string) (ttl : Z) (s : Server)
    (e : Event) : Prop :=
  exists r, e = EvSet s resource val NX ttl r.

Definition is_release (resource val : string) (s : Server) (e : Event) : Prop :=
  exists r, e = EvEval s unlock_script 1 [resource; val] r.

(** A peer accepted the conditional set: the call returned a true value. *)
Definition accepted (e : Event) : bool :=
  match e with
  | EvSet _ _ _ NX _ (Ret v) => truthy v
  | _ => false
  end.

Definition count_accepted (evs : list Event) : Z :=
  Z.of_nat (length (List.filter accepted evs)).

(** The success condition of line 89. *)
Definition succeeds (self : Redlock) (a : Attempt) : Prop :=
  0 < att_validity a /\ quorum self <= n a.

Definition monotone_clock (env : Env) : Prop :=
  forall tr tr', time_ms env tr <= time_ms env (tr ++ tr').

Section RunShape.
Variable env : Env.
Variables (self : Redlock) (resource : string) (ttl : Z) (val : string) (drift : Z).

(** One fan-out (lines 83-88) after the history [pre]. *)
Record fanout (pre : list Event) (t0 : Z) (sets : list Event) (t1 : Z)
    (a : Attempt) : Prop := MkFanout {
  fan_start : t0 = time_ms env pre;
  fan_sets : Forall2 (is_set_nx resource val ttl) (servers self) sets;
  fan_end : t1 = time_ms env (pre ++ EvTime t0 :: sets);
  fan_attempt : a = MkAttempt val (count_accepted sets) (t1 - t0)
                               (ttl - (t1 - t0) - drift) }.

(** [lock_rounds pre k evs atts r]: after the history [pre], a loop with
    [k] rounds left issues the calls [evs], makes the attempts [atts] and
    ends with [r]. *)
Inductive lock_rounds
    : list Event -> nat -> list Event -> list Attempt -> outcome (option Lock) -> Prop :=
| rounds_exhausted pre :
    lock_rounds pre 0 [] [] (Ret None)
| rounds_acquired pre k t0 sets t1 a :
    fanout pre t0 sets t1 a ->
    succeeds self a ->
    lock_rounds pre (S k) (EvTime t0 :: sets ++ [EvTime t1]) [a]
                (Ret (Some (MkLock (att_validity a) resource val)))
| rounds_retry pre k t0 sets t1 a evals rest atts r :
    fanout pre t0 sets t1 a ->
    ~ succeeds self a ->
    Forall2 (is_release resource val) (servers self) evals ->
    time_sleep env (retry_delay self) = Ret tt ->
    lock_rounds (pre ++ EvTime t0 :: sets ++ EvTime t1 :: evals ++ [EvSleep (retry_delay self)])
                k rest atts r ->
    lock_rounds pre (S k)
                (EvTime t0 :: sets ++ EvTime t1 :: evals ++ EvSleep (retry_delay self) :: rest)
                (a :: atts) r
| rounds_sleep_raises pre k t0 sets t1 a evals e :
    fanout pre t0 sets t1 a ->
    ~ succeeds self a ->
    Forall2 (is_release resource val) (servers self) evals ->
    time_sleep env (retry_delay self) = Raise e ->
    lock_rounds pre (S k)
                (EvTime t0 :: sets ++ EvTime t1 :: evals ++ [EvSleep (retry_delay self)])
                [a] (Raise e).

(** The calls a [lock] with token [val] may issue once the token exists. *)
Definition lock_call (e : Event) : Prop :=
  match e with
  | EvTime _ | EvSleep _ => True
  | EvSet _ k v mode px _ => k = resource /\ v = val /\ mode = NX /\ px = ttl
  | EvEval _ script numkeys args _ =>
      script = unlock_script /\ numkeys = 1 /\ args = [resource; val]
  | EvChoice _ | EvWait _ _ => False
  end.

End RunShape.

(** A run of [lock] once the token exists: line 79 raises, or the loop
    runs with the drift it computed. *)
Definition lock_shape (env : Env) (self : Redlock) (resource : string) (ttl : Z)
    (val : string) (pre evs : list Event) (atts : list Attempt)
    (r : outcome (option Lock)) : Prop :=
  match lock_drift ttl with
  | Ret drift =>
      lock_rounds env self resource ttl val drift pre
                  (Z.to_nat (retry_count self)) evs atts r
  | Raise e => evs = [] /\ atts = [] /\ r = Raise e
  end.

(** The attempts that the calls of a [lock] show.  An attempt lies between
    a clock reading [t0] and the next one [t1]; it counts the conditional
    sets in between that a peer accepted, its elapsed time is [t1 - t0] and
    its validity [ttl - (t1 - t0) - drift].  [open] holds [t0] and the count
    while an attempt is under way. *)
Fixpoint attempts_shown (val : string) (ttl drift : Z) (open : option (Z * Z))
    (evs : list Event) : list Attempt :=
  match evs with
  | [] => []
  | EvTime t :: rest =>
      match open with
      | None => attempts_shown val ttl drift (Some (t, 0)) rest
      | Some (t0, n) =>
          MkAttempt val n (t - t0) (ttl - (t - t0) - drift)
          :: attempts_shown val ttl drift None rest
      end
  | e :: rest =>
      attempts_shown val ttl drift
        (match open with
         | Some (t0, n) => Some (t0, if accepted e then n + 1 else n)
         | None => None
         end) rest
  end.

(** The peer [s] holds [name] with the value [val]. *)
Definition retains (ran : list Event -> Server -> bool) (tr : list Event)
    (s : Server) (name val : string) : Prop :=
  exists px, store_of ran tr s !! name = Some (val, px).

(** The last release of the token [val] of [name] that a trace shows for
    the peer [s]. *)
Definition is_release_of (s : Server) (name val : string) (e : Event) : bool :=
  match e with
  | EvEval s' _ _ args _ => bool_decide (s' = s) && bool_decide (args = [name; val])
  | _ => false
  end.

Definition last_release (tr : list Event) (s : Server) (name val : string)
    : option Event :=
  List.find (is_release_of s name val) (rev tr).

(** The peer answered the call: it returned, and raised nothing. *)
Definition replied (e : Event) : bool :=
  match e with
  | EvSet _ _ _ _ _ (Ret _) | EvEval _ _ _ _ (Ret _) => true
  | _ => false
  end.

(** The keyspace does not hold [name] with the value [val]. *)
Definition clear (name val : string) (st : gmap string (string * Z)) : Prop :=
  forall px, st !! name <> Some (val, px).

(** How many descriptors of a list can be turned into a client. *)
Definition constructible (env : Env) (l : list connection_info) : Z :=
  Z.of_nat (length (List.filter
    (fun info => match new_server env info with Ret _ => true | Raise _ => false end) l)).


(** ** Fixtures *)

Definition peer (k : string) : Server := StrictRedis (ConnUrl (String.append "redis://" k)).
Definition w0 : World := MkWorld [] [].

(** A clock that advances 10 ms with every call to the outside world. *)
Definition tick_clock (tr : list Event) : Z := 10 * Z.of_nat (length tr).
Definition count_rnd (tr : list Event) : nat := (7 * length tr + 3)%nat.
Definition no_faults (tr : list Event) (s : Server) : fault := Healthy.

(** The clock of every peer advances 10 ms with every call of the caller. *)
Definition tick_peers (tr : list Event) (s : Server) : Z := 10 * Z.of_nat (length tr).

Definition three_peers : Redlock :=
  MkRedlock [peer "a"; peer "b"; peer "c"] 2 3 (2 # 10).

(** A wall clock that is set back 10 ms with every call. *)
Definition back_clock (tr : list Event) : Z := 1000 - 10 * Z.of_nat (length tr).

Definition five_urls : list connection_info :=
  [ConnUrl "redis://10.0.0.1:6379"; ConnUrl "redis://10.0.0.2:6379";
   ConnUrl "redis://10.0.0.3:6379"; ConnUrl "redis://10.0.0.4:6379";
   ConnUrl "redis://10.0.0.5:6379"].

Definition plain_env : Env := redis_env no_faults tick_clock count_rnd.
Definition back_env : Env := redis_env no_faults back_clock count_rnd.

(** Three descriptors, the first with a misspelt option. *)
Definition one_bad_descriptor : list connection_info :=
  [ConnKwargs [("hostname", PyStr "10.0.0.1")]; ConnUrl "redis://10.0.0.2:6379";
   ConnUrl "redis://10.0.0.3:6379"].

Definition all_bad_descriptors : list connection_info :=
  [ConnKwargs [("hostname", PyStr "10.0.0.1")];
   ConnKwargs [("hostname", PyStr "10.0.0.2")];
   ConnKwargs [("hostname", PyStr "10.0.0.3")]].

(** Peers that answer and peers that raise, mixed. *)
Definition flaky (tr : list Event) (s : Server) : fault :=
  if decide (s = peer "a") then Healthy
  else if decide (s = peer "b") then RequestLost
  else ReplyLost.

Definition held_lock : Lock := MkLock 9858 "res" "dkryFMT07elszGNU18fmtA".

Definition all_down (tr : list Event) (s : Server) : fault := RequestLost.
Definition down_env : Env := redis_env all_down tick_clock count_rnd.

(** Peer a accepts one set and cannot be reached from then on; the other
    peers cannot be reached at all. *)
Definition cut_off (tr : list Event) (s : Server) : fault :=
  if decide (s = peer "a") then
    if existsb accepted tr then RequestLost else Healthy
  else RequestLost.

Definition cut_env : Env := redis_env cut_off tick_clock count_rnd.

(** Peer a is healthy, the other two cannot be reached. *)
Definition only_a (tr : list Event) (s : Server) : fault :=
  if decide (s = peer "a") then Healthy else RequestLost.

Definition only_a_env : Env := redis_env only_a tick_clock count_rnd.

Definition tok : string := "dkryFMT07elszGNU18fmtA".

(** Both peers hold the key, as after the fan-out of a successful [lock]. *)
Definition both_locked : list Event :=
  [EvSet (peer "a") "res" tok NX 20000 (Ret (PyBool true));
   EvSet (peer "b") "res" tok NX 20000 (Ret (PyBool true))].

Definition two_extenders : list main_op :=
  start_expiry_extender (peer "a") "res" tok 20000 ++
  start_expiry_extender (peer "b") "res" tok 20000 ++
  stop_expiry_extender.

(** ** Further vocabulary *)

(** The event is a [server.set] call. *)
Definition is_set (e : Event) : bool :=
  match e with EvSet _ _ _ _ _ _ => true | _ => false end.

(** The event is a [server.eval] call. *)
Definition is_eval (e : Event) : bool :=
  match e with EvEval _ _ _ _ _ => true | _ => false end.

(** The handle of a result, if it is one. *)
Definition is_handle (r : outcome (option Lock)) : bool :=
  match r with
  | Ret (Some _) => true
  | _ => false
  end.

(** The answer recorded in an event is the one the environment gives after
    the history [tr]. *)
Definition answers (env : Env) (tr : list Event) (e : Event) : Prop :=
  match e with
  | EvSet s k v mode px r => r = server_set env tr s k v mode px
  | EvEval s script numkeys args r => r = server_eval env tr s script numkeys args
  | EvTime t => t = time_ms env tr
  | _ => True
  end.

(** Every event of [evs], issued after [pre] and the events before it,
    carries the answer of the environment. *)
Fixpoint answered (env : Env) (pre evs : list Event) : Prop :=
  match evs with
  | [] => True
  | e :: rest => answers env pre e /\ answered env (pre ++ [e]) rest
  end.

(** A computation only appends to the trace, and what it appends is
    answered by the environment. *)
Definition extends (env : Env) {A : Type} (m : M A) : Prop :=
  forall w, exists evs,
    trace (snd (m w)) = trace w ++ evs /\ answered env (trace w) evs.

(** An event that cannot remove the key [k] while it holds the value [v],
    nor overwrite it: a conditional set, a release of another key or of
    another token, or a call that does not go to a peer. *)
Definition harmless (k v : string) (e : Event) : Prop :=
  match e with
  | EvSet _ _ _ NX _ _ => True
  | EvSet _ _ _ XX _ _ => False
  | EvEval _ script numkeys args _ =>
      script = unlock_script /\ numkeys = 1 /\
      exists k' v', args = [k'; v'] /\ (k' <> k \/ v' <> v)
  | _ => True
  end.

(** The peer [s] holds [name] with the value [val]; the peer does not hold
    [name] at all. *)
Definition holds (ran : list Event -> Server -> bool) (tr : list Event)
    (name val : string) (s : Server) : bool :=
  match store_of ran tr s !! name with
  | Some (v, _) => bool_decide (v = val)
  | None => false
  end.

Definition free (ran : list Event -> Server -> bool) (tr : list Event)
    (name : string) (s : Server) : bool :=
  match store_of ran tr s !! name with
  | Some _ => false
  | None => true
  end.

(** How many entries of a peer list hold [name] with the value [val]. *)
Definition holders (ran : list Event -> Server -> bool) (tr : list Event)
    (name val : string) (l : list Server) : Z :=
  Z.of_nat (length (List.filter (holds ran tr name val) l)).

(** Peer a holds the resource for another client. *)
Definition other_holder : list Event :=
  [EvSet (peer "a") "res" "held-by-another-client" NX 30000 (Ret (PyBool true))].

(** The world after the three healthy peers granted [held_lock]. *)
Definition locked_world : World :=
  snd (lock plain_env three_peers "res" 10000 w0).


(** How many steps a renewal loop needs at most to end once the flag is
    set. *)
Definition steps_to_end (p : loop_pc) : nat :=
  match p with
  | Finished => 0
  | AtTest => 1
  | AtSignal => 2
  | AtRenew => 3
  | AtWait => 4
  end.

(** One extender, for peer a, waiting; both peers hold the key. *)
Definition one_extender : Sys :=
  MkSys false [MkThread (peer "a") "res" tok 20000 AtWait] (Some 0%nat) both_locked.

(** ** ExpiryExtendingRedlock.lock, as the calling thread runs it

    The trace holds the calls of the calling thread.  The threads it
    starts make calls of their own; the answers of the peers may depend on
    them, and the environment stands for every such answer. *)

(** The threads of the manager: all that were started, and the one that
    [self.expiry_extender] records. *)
Record Extenders := MkExtenders {
  ext_threads : list Thread;
  ext_recorded : option nat }.

Definition ME (A : Type) : Type :=
  World * Extenders -> outcome A * (World * Extenders).

Definition retE {A} (a : A) : ME A := fun wx => (Ret a, wx).
Definition bindE {A B} (m : ME A) (k : A -> ME B) : ME B :=
  fun wx => match m wx with
            | (Ret a, wx') => k a wx'
            | (Raise e, wx') => (Raise e, wx')
            end.
(** A computation of the base class, which starts no thread. *)
Definition lift {A} (m : M A) : ME A :=
  fun wx => let '(r, w') := m (fst wx) in (r, (w', snd wx)).

Notation "x <<- m ;; k" := (bindE m (fun x => k))
  (at level 100, m at next level, right associativity).

(** [start_expiry_extender] (lines 131-132), the thread being created at
    the head of its loop. *)
Definition start_extender (server : Server) (resource val : string) (ttl : Z)
    : ME unit :=
  fun wx =>
    let x := snd wx in
    (Ret tt, (fst wx,
              MkExtenders (ext_threads x ++ [MkThread server resource val ttl AtTest])
                          (Some (length (ext_threads x))))).

(** Lines 146-149: the fan-out, with an extender for each accepted set. *)
Fixpoint ext_lock_servers (env : Env) (servers : list Server)
    (resource val : string) (ttl : Z) (n : Z) : ME Z :=
  match servers with
  | [] => retE n
  | server :: rest =>
      r <<- lift (lock_instance env server resource val ttl) ;;
      if truthy r then
        _ <<- start_extender server resource val ttl ;;
        ext_lock_servers env rest resource val ttl (n + 1)
      else ext_lock_servers env rest resource val ttl n
  end.

(** Lines 144-158: the body of the loop. *)
Definition ext_lock_round (env : Env) (self : Redlock) (resource : string)
    (ttl : Z) (val : string) (drift : Z) : ME (option Lock) :=
  start_time <<- lift (now_ms env) ;;
  n <<- ext_lock_servers env (servers self) resource val ttl 0 ;;
  end_time <<- lift (now_ms env) ;;
  let elapsed_time := end_time - start_time in
  let validity := ttl - elapsed_time - drift in
  _ <<- lift (note_attempt (MkAttempt val n elapsed_time validity)) ;;
  if (validity >? 0) && (n >=? quorum self) then
    retE (Some (MkLock validity resource val))
  else
    _ <<- lift (lock_cleanup env self resource val) ;;
    retE None.

(** Lines 143-159: the loop, with the fuel of [lock_while]. *)
Fixpoint ext_lock_while (env : Env) (fuel : nat) (self : Redlock)
    (resource : string) (ttl : Z) (val : string) (drift : Z) (retry : Z)
    : ME (option Lock) :=
  if retry <? retry_count self then
    match fuel with
    | O => retE None
    | S fuel' =>
        r <<- ext_lock_round env self resource ttl val drift ;;
        match r with
        | Some lock => retE (Some lock)
        | None => ext_lock_while env fuel' self resource ttl val drift (retry + 1)
        end
    end
  else retE None.

(** [ExpiryExtendingRedlock.lock] *)
Definition ext_lock (env : Env) (self : Redlock) (resource : string) (ttl : Z)
    : ME (option Lock) :=
  let retry := 0 in
  val <<- lift (get_unique_id env) ;;
  drift <<- lift (of_outcome (lock_drift ttl)) ;;
  ext_lock_while env (Z.to_nat (retry_count self - retry)) self resource ttl val
                 drift retry.

(** The thread that an accepted set starts. *)
Definition thread_of (e : Event) : list Thread :=
  match e with
  | EvSet s k v NX px _ => if accepted e then [MkThread s k v px AtTest] else []
  | _ => []
  end.

Definition started_by (evs : list Event) : list Thread := flat_map thread_of evs.

(** The manager after the threads [ths] were started, one after another. *)
Definition grow (x : Extenders) (ths : list Thread) : Extenders :=
  MkExtenders (ext_threads x ++ ths)
              (match ths with
               | [] => ext_recorded x
               | _ => Some (length (ext_threads x ++ ths) - 1)%nat
               end).

(** ** ExpiryExtendingRedlock.unlock among the threads *)

(** The actions of the calling thread: those of [stop_expiry_extender],
    and the release of line 164. *)
Inductive ext_op :=
| Manager (op : main_op)
| Release (server : Server) (resource val : string).

(** [ExpiryExtendingRedlock.unlock] (lines 161-164): for every peer, stop
    the extender, then release. *)
Definition ext_unlock (self : Redlock) (lock : Lock) : list ext_op :=
  flat_map (fun server =>
              map Manager stop_expiry_extender
              ++ [Release server (resource lock) (key lock)])
           (servers self).

(** One action of the caller.  [unlock_instance] swallows what the peer
    raises, so a release always goes through. *)
Definition ext_main_step (env : Env) (op : ext_op) (s : Sys) : option Sys :=
  match op with
  | Manager op => main_step op s
  | Release server resource val =>
      let r := server_eval env (sys_trace s) server unlock_script 1 [resource; val] in
      Some (MkSys (event s) (threads s) (expiry_extender s)
                  (sys_trace s ++ [EvEval server unlock_script 1 [resource; val] r]))
  end.

Definition ext_sys_step (env : Env) (who : tid) (s : Sys) (prog : list ext_op)
    : option (Sys * list ext_op) :=
  match who with
  | Main =>
      match prog with
      | [] => None
      | op :: rest =>
          match ext_main_step env op s with
          | Some s' => Some (s', rest)
          | None => None
          end
      end
  | Worker i =>
      match sys_step env (Worker i) s [] with
      | Some (s', _) => Some (s', prog)
      | None => None
      end
  end.

Fixpoint ext_run (env : Env) (sched : list tid) (s : Sys) (prog : list ext_op)
    : option (Sys * list ext_op) :=
  match sched with
  | [] => Some (s, prog)
  | who :: rest =>
      match ext_sys_step env who s prog with
      | Some (s', prog') => ext_run env rest s' prog'
      | None => None
      end
  end.

(** The releases that a program still has to issue. *)
Definition releases_of (prog : list ext_op) : list (Server * string * string) :=
  flat_map (fun op => match op with
                      | Release server resource val => [(server, resource, val)]
                      | Manager _ => []
                      end) prog.

(** A manager of the two peers that hold the key. *)
Definition two_peers : Redlock := MkRedlock [peer "a"; peer "b"] 2 3 (2 # 10).

(** * Proofs *)

(** Re-associate the appended pieces of a trace to the right. *)
Ltac norm_app := repeat first [rewrite <- app_assoc | progress simpl].
Ltac norm_app_in H :=
  repeat first [rewrite <- app_assoc in H | progress simpl in H].

(** ** Float arithmetic *)

Lemma round53_opp (m e : Z) : round53 (- m) e = fneg (round53 m e).
Proof.
  unfold round53, fneg. rewrite Z.abs_opp, Z.sgn_opp.
  destruct (Z.log2 (Z.abs m) - 52 <=? 0); simpl; [reflexivity|].
  f_equal. lia.
Qed.

Lemma int_of_float_opp (f : pyfloat) : int_of_float (fneg f) = - int_of_float f.
Proof.
  unfold int_of_float, fneg. simpl.
  destruct (0 <=? expo f) eqn:He; [lia|]. apply Z.leb_gt in He.
  apply Z.quot_opp_l. apply Z.pow_nonzero; lia.
Qed.

Lemma float_mul_opp (a e : Z) (b : pyfloat) :
  float_mul (MkFloat (- a) e) b = fneg (float_mul (MkFloat a e) b).
Proof.
  unfold float_mul. cbn [mant expo]. rewrite Z.mul_opp_l. apply round53_opp.
Qed.

(** What rounding does to a positive number: nothing when it has 53 bits
    at most; otherwise the mantissa loses [d] bits, and it goes up only
    from the half on.  The result is at most twice the number. *)
Lemma round53_pos (m e : Z) :
  0 < m ->
  exists d q,
    round53 m e = MkFloat q (e + d) /\ 0 <= d /\ 0 < q /\
    q * 2 ^ d <= 2 * m /\
    ((d = 0 /\ q = m /\ m < 2 ^ 53) \/
     (0 < d /\ d = Z.log2 m - 52 /\ m / 2 ^ d <= q <= m / 2 ^ d + 1 /\
      (q = m / 2 ^ d + 1 -> 2 ^ (d - 1) <= m mod 2 ^ d))).
Proof.
  intros Hm. unfold round53. rewrite Z.abs_eq, (Z.sgn_pos m) by lia.
  pose proof (Z.log2_spec m Hm) as [Hlo Hhi].
  destruct (Z.log2 m - 52 <=? 0) eqn:Hd.
  - apply Z.leb_le in Hd. exists 0, m. rewrite Z.add_0_r.
    split; [reflexivity|]. split; [lia|]. split; [lia|]. split; [lia|]. left.
    split; [reflexivity|]. split; [reflexivity|].
    eapply Z.lt_le_trans; [exact Hhi|]. apply Z.pow_le_mono_r; lia.
  - apply Z.leb_gt in Hd. set (d := Z.log2 m - 52) in *.
    assert (Hp : 0 < 2 ^ d) by (apply Z.pow_pos_nonneg; lia).
    assert (Hq : 2 ^ 52 <= m / 2 ^ d).
    { apply Z.div_le_lower_bound; [lia|].
      rewrite <- Z.pow_add_r by lia. replace (d + 52) with (Z.log2 m) by lia. exact Hlo. }
    pose proof (Z.div_mod m (2 ^ d) ltac:(lia)) as Hdm.
    pose proof (Z.mod_pos_bound m (2 ^ d) Hp) as Hr.
    set (q := m / 2 ^ d) in *. set (r := m mod 2 ^ d) in *.
    set (up := (2 ^ (d - 1) <? r) || ((r =? 2 ^ (d - 1)) && Z.odd q)).
    exists d, (if up then q + 1 else q).
    split; [f_equal; lia|]. split; [lia|].
    assert (Hup : up = true -> 2 ^ (d - 1) <= r).
    { subst up. intros H. apply orb_true_iff in H as [H|H].
      - apply Z.ltb_lt in H. lia.
      - apply andb_true_iff in H as [H _]. apply Z.eqb_eq in H. lia. }
    change (2 ^ 52) with 4503599627370496 in Hq.
    destruct up; (split; [lia|]); (split; [nia|]); right;
      (split; [lia|]); (split; [reflexivity|]); (split; [lia|]); intros Heq;
      [auto | lia].
Qed.

(** Rounding in general: the sign stays, and the magnitude at most
    doubles. *)
Lemma round53_bound (m e : Z) :
  exists d q,
    round53 m e = MkFloat (Z.sgn m * q) (e + d) /\ 0 <= d /\ 0 <= q /\
    q * 2 ^ d <= 2 * Z.abs m.
Proof.
  destruct (Z.lt_trichotomy m 0) as [Hneg | [-> | Hpos]].
  - destruct (round53_pos (- m) e ltac:(lia)) as (d & q & Hr & Hd & Hq & Hle & _).
    exists d, q. replace m with (- - m) at 1 by lia.
    rewrite round53_opp, Hr. unfold fneg. cbn [mant expo].
    rewrite (Z.sgn_neg m) by lia. split; [f_equal; lia|]. repeat split; lia.
  - exists 0, 0. split; [unfold round53; simpl; f_equal; lia|]. repeat split; lia.
  - destruct (round53_pos m e Hpos) as (d & q & Hr & Hd & Hq & Hle & _).
    exists d, q. rewrite Hr, (Z.sgn_pos m) by lia. split; [f_equal; lia|].
    repeat split; lia.
Qed.

(** The literal [0.01] is the float nearest to 1/100: a mantissa of 53
    bits, less than half a unit of its last bit away from 1/100. *)
Lemma clock_drift_factor_nearest :
  2 ^ 52 <= mant clock_drift_factor < 2 ^ 53 /\
  2 * Z.abs (100 * mant clock_drift_factor - 2 ^ (- expo clock_drift_factor)) < 100.
Proof. vm_compute. repeat split; discriminate. Qed.

(** [float(z)] is [z] itself up to 53 bits. *)
Lemma float_of_int_exact (z : Z) :
  Z.abs z < 2 ^ 53 -> float_of_int z = Ret (MkFloat z 0).
Proof.
  intros Hz. unfold float_of_int.
  assert (Hr : round53 z 0 = MkFloat z 0).
  { unfold round53.
    assert (Hd : Z.log2 (Z.abs z) - 52 <= 0).
    { destruct (Z.eq_dec z 0) as [->|Hne]; [simpl; lia|].
      pose proof (proj1 (Z.log2_lt_pow2 (Z.abs z) 53 ltac:(lia)) Hz). lia. }
    apply Z.leb_le in Hd. by rewrite Hd. }
  rewrite Hr. cbn [mant expo].
  assert (Hlt : Z.abs z * 2 ^ 0 < 2 ^ 1024).
  { rewrite Z.pow_0_r, Z.mul_1_r. eapply Z.lt_trans; [exact Hz|].
    apply Z.pow_lt_mono_r; lia. }
  apply Z.leb_gt in Hlt. by rewrite Hlt.
Qed.

(** [float(z)] raises only near the end of the range of the format. *)
Lemma float_of_int_defined (z : Z) :
  Z.abs z < 2 ^ 1023 -> float_of_int z = Ret (round53 z 0).
Proof.
  intros Hz. unfold float_of_int.
  destruct (round53_bound z 0) as (d & q & Hr & Hd & Hq & Hle).
  rewrite Hr. cbn [mant expo]. rewrite Z.add_0_l.
  assert (Hlt : Z.abs (Z.sgn z * q) * 2 ^ d < 2 ^ 1024).
  { rewrite Z.abs_mul, (Z.abs_eq q) by lia.
    assert (Hs : 0 <= Z.abs (Z.sgn z) <= 1) by lia.
    assert (0 <= 2 ^ d) by (apply Z.pow_nonneg; lia).
    replace (2 ^ 1024) with (2 * 2 ^ 1023) by (rewrite <- Z.pow_succ_r; [reflexivity|lia]).
    nia. }
  apply Z.leb_gt in Hlt. by rewrite Hlt.
Qed.

(** The product [ttl * 0.01], truncated, is [ttl / 100] as long as the
    float holds [ttl] exactly. *)
Lemma drift_product (ttl : Z) :
  0 <= ttl < 2 ^ 53 ->
  int_of_float (float_mul (MkFloat ttl 0) clock_drift_factor) = ttl / 100.
Proof.
  intros [Hlo Hhi]. unfold float_mul, clock_drift_factor. cbn [mant expo].
  change (2 ^ 53) with 9007199254740992 in Hhi.
  destruct (Z.eq_dec ttl 0) as [->|Hne]; [reflexivity|].
  set (M := 5764607523034235). set (N := ttl * M).
  assert (HN : 0 < N) by (subst N M; lia).
  destruct (round53_pos N (0 + -59) HN) as (d & q & -> & Hd & Hq & Hle & Hbits).
  unfold int_of_float. cbn [mant expo].
  pose proof (Z.log2_spec N HN) as [Hl1 Hl2].
  assert (Hlog : Z.log2 N <= 105).
  { destruct (Z_le_gt_dec (Z.log2 N) 105) as [?|Hgt]; [done|]. exfalso.
    assert (2 ^ 106 <= 2 ^ Z.log2 N) by (apply Z.pow_le_mono_r; lia).
    change (2 ^ 106) with 81129638414606681695789005144064 in *.
    subst N M. nia. }
  destruct Hbits as [(-> & -> & Hsmall) | (Hd0 & Hdef & Hqr & Hup)].
  - (* the product has 53 bits: ttl = 1 *)
    change (2 ^ 53) with 9007199254740992 in Hsmall.
    assert (Hone : ttl = 1) by (subst N M; lia).
    subst N. rewrite Hone. reflexivity.
  - pose proof (Z.div_mod ttl 100 ltac:(lia)) as Hk.
    pose proof (Z.mod_pos_bound ttl 100 ltac:(lia)) as Hr.
    set (k := ttl / 100) in *. set (rr := ttl mod 100) in *.
    assert (Hd53 : d <= 53) by lia.
    assert (He : (0 <=? 0 + -59 + d) = false) by (apply Z.leb_gt; lia).
    rewrite He. replace (- (0 + -59 + d)) with (59 - d) by lia.
    assert (Hp : 0 < 2 ^ d) by (apply Z.pow_pos_nonneg; lia).
    assert (Hs : 0 < 2 ^ (59 - d)) by (apply Z.pow_pos_nonneg; lia).
    rewrite Z.quot_div_nonneg by lia.
    assert (Hps : 2 ^ d * 2 ^ (59 - d) = 576460752303423488).
    { rewrite <- Z.pow_add_r by lia. replace (d + (59 - d)) with 59 by lia. reflexivity. }
    assert (Hh : 2 * 2 ^ (d - 1) = 2 ^ d).
    { rewrite <- Z.pow_succ_r by lia. f_equal. lia. }
    assert (Hh52 : 2 ^ (d - 1) <= 4503599627370496).
    { change 4503599627370496 with (2 ^ 52). apply Z.pow_le_mono_r; lia. }
    pose proof (Z.div_mod N (2 ^ d) ltac:(lia)) as Hdm.
    pose proof (Z.mod_pos_bound N (2 ^ d) Hp) as Hrm.
    set (P := 2 ^ d) in *. set (S := 2 ^ (59 - d)) in *. set (H := 2 ^ (d - 1)) in *.
    set (q0 := N / P) in *. set (r0 := N mod P) in *.
    assert (HkN : k * (P * S) <= N) by (rewrite Hps; subst N M; lia).
    assert (HNk : N + H < (k + 1) * (P * S)) by (rewrite Hps; subst N M; lia).
    symmetry. apply Z.div_unique with (r := q - k * S); [|lia].
    left. split.
    + assert (k * S < q0 + 1) by nia. lia.
    + destruct (Z.eq_dec q (q0 + 1)) as [Hq1|Hq1].
      * specialize (Hup Hq1). nia.
      * assert (q = q0) by lia. nia.
Qed.

(** Line 79 in the range in which a float holds every integer: the drift
    is [ttl * 0.01] truncated toward zero, plus 2. *)
Lemma lock_drift_quot (ttl : Z) :
  Z.abs ttl < 2 ^ 53 -> lock_drift ttl = Ret (Z.quot ttl 100 + 2).
Proof.
  intros Httl. unfold lock_drift. rewrite (float_of_int_exact ttl Httl).
  f_equal. f_equal.
  destruct (Z_le_gt_dec 0 ttl) as [Hpos|Hneg].
  - rewrite drift_product by lia. by rewrite Z.quot_div_nonneg by lia.
  - replace ttl with (- - ttl) at 1 by lia.
    rewrite float_mul_opp, int_of_float_opp, drift_product by lia.
    replace ttl with (- - ttl) at 2 by lia.
    rewrite Z.quot_opp_l by lia. by rewrite Z.quot_div_nonneg by lia.
Qed.

(** Line 79 raises only for a [ttl] near the end of the range of a
    float. *)
Lemma lock_drift_defined (ttl : Z) :
  Z.abs ttl < 2 ^ 1023 -> exists drift, lock_drift ttl = Ret drift.
Proof.
  intros H. unfold lock_drift. rewrite (float_of_int_defined ttl H). by eexists.
Qed.

(** Whatever rounding does to a [ttl] of 2 ms or less, the drift is not
    below it. *)
Lemma lock_drift_above (ttl drift : Z) :
  ttl <= 2 -> lock_drift ttl = Ret drift -> ttl <= drift.
Proof.
  intros Httl Hd.
  destruct (Z_lt_ge_dec (Z.abs ttl) (2 ^ 53)) as [Hsmall|Hbig].
  - rewrite (lock_drift_quot ttl Hsmall) in Hd. inversion Hd; subst.
    Z.to_euclidean_division_equations. lia.
  - change (2 ^ 53) with 9007199254740992 in Hbig.
    unfold lock_drift in Hd.
    destruct (float_of_int ttl) as [f|e] eqn:Hf; [|discriminate].
    inversion Hd; subst. clear Hd.
    unfold float_of_int in Hf.
    destruct (2 ^ 1024 <=? _); [discriminate|]. inversion Hf; subst. clear Hf.
    set (a := - ttl). assert (Ha : 9007199254740992 <= a) by lia.
    replace ttl with (- a) by lia.
    rewrite round53_opp.
    destruct (round53_pos a 0 ltac:(lia)) as (d1 & q1 & -> & Hd1 & Hq1 & Hle1 & _).
    unfold fneg at 1. cbn [mant expo].
    rewrite float_mul_opp, int_of_float_opp.
    unfold float_mul, clock_drift_factor. cbn [mant expo].
    set (M := 5764607523034235).
    destruct (round53_pos (q1 * M) (0 + d1 + -59) ltac:(subst M; lia))
      as (d2 & q2 & -> & Hd2 & Hq2 & Hle2 & _).
    assert (HD1 : 0 < 2 ^ d1) by (apply Z.pow_pos_nonneg; lia).
    assert (HD2 : 0 < 2 ^ d2) by (apply Z.pow_pos_nonneg; lia).
    set (D1 := 2 ^ d1) in *. set (D2 := 2 ^ d2) in *.
    assert (Hall : q2 * (D1 * D2) <= 4 * a * M).
    { assert (q2 * D2 * D1 <= 2 * (q1 * M) * D1) by (apply Z.mul_le_mono_nonneg_r; lia).
      assert (q1 * D1 * (2 * M) <= 2 * a * (2 * M))
        by (apply Z.mul_le_mono_nonneg_r; subst M; lia).
      lia. }
    assert (Hsmall : 4 * a * M < (a + 1) * 576460752303423488) by (subst M; lia).
    assert (HX : int_of_float (MkFloat q2 (0 + d1 + -59 + d2)) <= a).
    { unfold int_of_float. cbn [mant expo].
      destruct (0 <=? 0 + d1 + -59 + d2) eqn:He.
      - apply Z.leb_le in He. set (e2 := 0 + d1 + -59 + d2) in *.
        assert (HE : 0 < 2 ^ e2) by (apply Z.pow_pos_nonneg; lia).
        assert (Hpow : D1 * D2 = 2 ^ e2 * 576460752303423488).
        { subst D1 D2. rewrite <- Z.pow_add_r by lia.
          change 576460752303423488 with (2 ^ 59). rewrite <- Z.pow_add_r by lia.
          f_equal. lia. }
        rewrite Hpow in Hall. set (E := 2 ^ e2) in *. nia.
      - apply Z.leb_gt in He. set (k := - (0 + d1 + -59 + d2)) in *.
        assert (HK : 0 < 2 ^ k) by (apply Z.pow_pos_nonneg; lia).
        rewrite Z.quot_div_nonneg by lia.
        assert (Hpow : D1 * D2 * 2 ^ k = 576460752303423488).
        { subst D1 D2. rewrite <- !Z.pow_add_r by lia.
          change 576460752303423488 with (2 ^ 59). f_equal. lia. }
        set (K := 2 ^ k) in *.
        assert (q2 / K < a + 1); [|lia].
        apply Z.div_lt_upper_bound; [lia|]. nia. }
    lia.
Qed.

(** From here on the drift is used through these lemmas. *)
#[global] Opaque lock_drift.

Lemma count_accepted_cons (e : Event) (evs : list Event) :
  count_accepted (e :: evs) = (if accepted e then 1 else 0) + count_accepted evs.
Proof.
  unfold count_accepted. simpl. destruct (accepted e); simpl length; lia.
Qed.

(** ** The shape of a run of [lock] *)

Section Runs.
Variable env : Env.
Variables (self : Redlock) (resource : string) (ttl : Z) (val : string) (drift : Z).
Local Abbreviation fanout := (fanout env self resource ttl val drift).
Local Abbreviation lock_rounds := (lock_rounds env self resource ttl val drift).
Local Abbreviation lock_call := (lock_call resource ttl val).

Lemma world_eta (w : World) : MkWorld (trace w ++ []) (attempts w ++ []) = w.
Proof. destruct w; simpl; by rewrite !app_nil_r. Qed.

Lemma lock_instance_run (server : Server) (w : World) :
  exists r v,
    lock_instance env server resource val ttl w
    = (Ret v, MkWorld (trace w ++ [EvSet server resource val NX ttl r]) (attempts w))
    /\ truthy v = accepted (EvSet server resource val NX ttl r).
Proof.
  unfold lock_instance, try_except, redis_set, ret.
  exists (server_set env (trace w) server resource val NX ttl).
  destruct (server_set env (trace w) server resource val NX ttl) as [v|e]; simpl.
  - by exists v.
  - by exists (PyBool false).
Qed.

Lemma lock_servers_run (l : list Server) : forall (acc : Z) (w : World),
  exists sets,
    lock_servers env l resource val ttl acc w
    = (Ret (acc + count_accepted sets), MkWorld (trace w ++ sets) (attempts w))
    /\ Forall2 (is_set_nx resource val ttl) l sets.
Proof.
  induction l as [|s l IH]; intros acc w; simpl.
  - exists []. unfold ret, count_accepted. simpl.
    rewrite Z.add_0_r, app_nil_r. by destruct w.
  - destruct (lock_instance_run s w) as (r & v & Hrun & Hv).
    unfold bind. rewrite Hrun.
    destruct (IH (if truthy v then acc + 1 else acc)
                 (MkWorld (trace w ++ [EvSet s resource val NX ttl r]) (attempts w)))
      as (sets & Hrest & Hshape).
    exists (EvSet s resource val NX ttl r :: sets). split.
    + rewrite Hrest. simpl. rewrite <- app_assoc. simpl. f_equal. f_equal.
      unfold count_accepted. simpl List.filter.
      change (match r with Ret v0 => truthy v0 | Raise _ => false end)
        with (accepted (EvSet s resource val NX ttl r)).
      rewrite <- Hv. destruct (truthy v); simpl length; lia.
    + constructor; [by exists r | done].
Qed.

Lemma unlock_instance_run (server : Server) (w : World) :
  exists r,
    unlock_instance env server resource val w
    = (Ret tt, MkWorld (trace w ++ [EvEval server unlock_script 1 [resource; val] r])
                       (attempts w)).
Proof.
  unfold unlock_instance, try_except, bind, redis_eval, ret.
  exists (server_eval env (trace w) server unlock_script 1 [resource; val]).
  by destruct (server_eval env (trace w) server unlock_script 1 [resource; val]).
Qed.

Lemma unlock_servers_run (l : list Server) : forall w : World,
  exists evals,
    unlock_servers env l resource val w
    = (Ret tt, MkWorld (trace w ++ evals) (attempts w))
    /\ Forall2 (is_release resource val) l evals.
Proof.
  induction l as [|s l IH]; intros w; simpl.
  - exists []. unfold ret. rewrite app_nil_r. by destruct w.
  - destruct (unlock_instance_run s w) as (r & Hrun).
    unfold bind. rewrite Hrun.
    destruct (IH (MkWorld (trace w ++ [EvEval s unlock_script 1 [resource; val] r])
                          (attempts w))) as (evals & Hrest & Hshape).
    exists (EvEval s unlock_script 1 [resource; val] r :: evals). split.
    + rewrite Hrest. simpl. by rewrite <- app_assoc.
    + constructor; [by exists r | done].
Qed.

Lemma lock_attempt_run (w : World) :
  exists t0 sets t1 a,
    lock_attempt env self resource ttl val drift w
    = (Ret (n a, att_validity a),
       MkWorld (trace w ++ EvTime t0 :: sets ++ [EvTime t1]) (attempts w ++ [a]))
    /\ fanout (trace w) t0 sets t1 a.
Proof.
  unfold lock_attempt, bind, now_ms, note_attempt, ret. simpl.
  destruct (lock_servers_run (servers self) 0
              (MkWorld (trace w ++ [EvTime (time_ms env (trace w))]) (attempts w)))
    as (sets & Hrun & Hshape).
  rewrite Hrun. simpl.
  set (t0 := time_ms env (trace w)).
  set (t1 := time_ms env ((trace w ++ [EvTime t0]) ++ sets)).
  exists t0, sets, t1,
    (MkAttempt val (count_accepted sets) (t1 - t0) (ttl - (t1 - t0) - drift)).
  simpl. split.
  - rewrite Z.add_0_l. do 2 f_equal. rewrite <- !app_assoc. done.
  - split; try done. subst t1. by rewrite <- app_assoc.
Qed.

Lemma lock_cleanup_run (w : World) :
  exists evals,
    lock_cleanup env self resource val w
    = (time_sleep env (retry_delay self),
       MkWorld (trace w ++ evals ++ [EvSleep (retry_delay self)]) (attempts w))
    /\ Forall2 (is_release resource val) (servers self) evals.
Proof.
  unfold lock_cleanup, bind.
  destruct (unlock_servers_run (servers self) w) as (evals & Hrun & Hshape).
  rewrite Hrun. exists evals. split; [|done].
  unfold sleep. simpl. by rewrite <- app_assoc.
Qed.

Lemma succeeds_test (a : Attempt) :
  (att_validity a >? 0) && (n a >=? quorum self) = true <-> succeeds self a.
Proof.
  unfold succeeds. rewrite andb_true_iff, Z.gtb_lt, Z.geb_le. tauto.
Qed.

(** A round either acquires, or fails and releases on every peer. *)
Lemma lock_round_run (w : World) :
  exists t0 sets t1 a,
    fanout (trace w) t0 sets t1 a /\
    ((succeeds self a /\
      lock_round env self resource ttl val drift w
      = (Ret (Some (MkLock (att_validity a) resource val)),
         MkWorld (trace w ++ EvTime t0 :: sets ++ [EvTime t1]) (attempts w ++ [a])))
     \/
     (~ succeeds self a /\ exists evals,
      Forall2 (is_release resource val) (servers self) evals /\
      lock_round env self resource ttl val drift w
      = (match time_sleep env (retry_delay self) with
         | Ret _ => Ret None
         | Raise e => Raise e
         end,
         MkWorld (trace w ++ EvTime t0 :: sets ++ EvTime t1 :: evals
                          ++ [EvSleep (retry_delay self)])
                 (attempts w ++ [a])))).
Proof.
  destruct (lock_attempt_run w) as (t0 & sets & t1 & a & Hrun & Hfan).
  exists t0, sets, t1, a. split; [done|].
  unfold lock_round, bind. rewrite Hrun.
  destruct ((att_validity a >? 0) && (n a >=? quorum self)) eqn:Hok.
  - left. apply succeeds_test in Hok. by split.
  - right. split.
    { intros Hs. apply succeeds_test in Hs. congruence. }
    set (w1 := MkWorld (trace w ++ EvTime t0 :: sets ++ [EvTime t1]) (attempts w ++ [a])).
    destruct (lock_cleanup_run w1) as (evals & Hclean & Hrel).
    exists evals. split; [done|]. rewrite Hclean. subst w1.
    destruct (time_sleep env (retry_delay self)) as [[]|e]; unfold ret; by norm_app.
Qed.

(** Every run of the loop has the shape [lock_rounds], with as many rounds
    as [retry_count - retry], whatever fuel is left over. *)
Lemma lock_while_rounds : forall (fuel : nat) (retry : Z) (w : World),
  (Z.to_nat (retry_count self - retry) <= fuel)%nat ->
  exists evs atts r,
    lock_while env fuel self resource ttl val drift retry w
    = (r, MkWorld (trace w ++ evs) (attempts w ++ atts))
    /\ lock_rounds (trace w) (Z.to_nat (retry_count self - retry)) evs atts r.
Proof.
  induction fuel as [|fuel IH]; intros retry w Hfuel; simpl;
    destruct (retry <? retry_count self) eqn:Hlt;
    try (apply Z.ltb_ge in Hlt; exists [], [], (Ret None);
         unfold ret; rewrite world_eta; split; [done|];
         replace (Z.to_nat (retry_count self - retry)) with O by lia;
         constructor).
  - apply Z.ltb_lt in Hlt. lia.
  - apply Z.ltb_lt in Hlt.
    replace (Z.to_nat (retry_count self - retry))
      with (S (Z.to_nat (retry_count self - (retry + 1)))) in * by lia.
    destruct (lock_round_run w)
      as (t0 & sets & t1 & a & Hfan & [[Hok Hrun] | [Hfail (evals & Hrel & Hrun)]]);
      unfold bind; rewrite Hrun.
    + exists (EvTime t0 :: sets ++ [EvTime t1]), [a],
        (Ret (Some (MkLock (att_validity a) resource val))).
      split; [done|]. by econstructor.
    + destruct (time_sleep env (retry_delay self)) as [[]|e] eqn:Hdelay.
      * set (w2 := MkWorld _ _).
        destruct (IH (retry + 1) w2) as (rest & atts & r & Hrest & Hshape); [lia|].
        exists (EvTime t0 :: sets ++ EvTime t1 :: evals
                  ++ EvSleep (retry_delay self) :: rest), (a :: atts), r.
        split.
        -- rewrite Hrest. subst w2. simpl. f_equal. f_equal; by norm_app.
        -- eapply rounds_retry; eauto.
      * exists (EvTime t0 :: sets ++ EvTime t1 :: evals ++ [EvSleep (retry_delay self)]),
          [a], (Raise e).
        split; [done|]. by eapply rounds_sleep_raises.
Qed.

(** *** What follows from the shape *)

Lemma fanout_attempt pre t0 sets t1 a :
  fanout pre t0 sets t1 a ->
  token a = val /\ n a = count_accepted sets /\
  att_validity a = ttl - elapsed_time a - drift /\
  (monotone_clock env -> 0 <= elapsed_time a).
Proof.
  intros [H0 _ H1 ->]. simpl. repeat split; try done.
  intros Hmono. subst t0 t1. specialize (Hmono pre (EvTime (time_ms env pre) :: sets)). lia.
Qed.

Lemma rounds_attempts pre k evs atts r :
  lock_rounds pre k evs atts r ->
  Forall (fun a => token a = val /\
                   att_validity a = ttl - elapsed_time a - drift /\
                   (monotone_clock env -> 0 <= elapsed_time a)) atts.
Proof.
  induction 1 as [ | ? ? ? ? ? ? Hfan | ? ? ? ? ? ? ? ? ? ? Hfan | ? ? ? ? ? ? ? ? Hfan ];
    try (destruct (fanout_attempt _ _ _ _ _ Hfan) as (? & ? & ? & ?));
    repeat constructor; auto.
Qed.

Lemma rounds_result pre k evs atts r :
  lock_rounds pre k evs atts r ->
  match r with
  | Ret (Some h) =>
      exists fails a, atts = fails ++ [a] /\
        Forall (fun x => ~ succeeds self x) fails /\ succeeds self a /\
        h = MkLock (att_validity a) resource val
  | Ret None =>
      Forall (fun x => ~ succeeds self x) atts /\ length atts = k
  | Raise e =>
      Forall (fun x => ~ succeeds self x) atts /\
      time_sleep env (retry_delay self) = Raise e
  end.
Proof.
  induction 1 as [ | pre k t0 sets t1 a Hfan Hok
                   | pre k t0 sets t1 a evals rest atts r Hfan Hfail Hrel Hd Hrest IH
                   | pre k t0 sets t1 a evals e Hfan Hfail Hrel Hd ].
  - by split.
  - exists [], a. split; [done|]. split; [constructor|]. by split.
  - destruct r as [[h|]|e].
    + destruct IH as (fails & b & -> & Hfails & Hb & ->).
      exists (a :: fails), b. split; [done|]. split; [by constructor|]. by split.
    + destruct IH as [Hall <-]. split; [by constructor | done].
    + destruct IH as [Hall Hneg]. split; [by constructor | done].
  - split; [by repeat constructor | done].
Qed.

Lemma rounds_acquired_trace pre k evs atts h :
  lock_rounds pre k evs atts (Ret (Some h)) ->
  exists mid t0 sets t1 a,
    evs = mid ++ EvTime t0 :: sets ++ [EvTime t1] /\
    fanout (pre ++ mid) t0 sets t1 a /\ succeeds self a /\
    h = MkLock (att_validity a) resource val.
Proof.
  intros H. remember (Ret (Some h)) as r eqn:Hr.
  induction H as [ | pre k t0 sets t1 a Hfan Hok
                   | pre k t0 sets t1 a evals rest atts r Hfan Hfail Hrel Hd Hrest IH
                   | pre k t0 sets t1 a evals e Hfan Hfail Hrel Hd ]; try discriminate.
  - inversion Hr; subst. exists [], t0, sets, t1, a. by rewrite app_nil_r.
  - destruct (IH Hr) as (mid & u0 & usets & u1 & b & -> & Hb & Hs & ->).
    exists (EvTime t0 :: sets ++ EvTime t1 :: evals ++ EvSleep (retry_delay self) :: mid),
      u0, usets, u1, b.
    split; [by norm_app|]. split; [|by split].
    norm_app_in Hb. by norm_app.
Qed.

Lemma rounds_failed_trace pre k evs atts :
  lock_rounds pre k evs atts (Ret None) ->
  (0 < k)%nat ->
  exists mid evals,
    evs = mid ++ evals ++ [EvSleep (retry_delay self)] /\
    Forall2 (is_release resource val) (servers self) evals.
Proof.
  intros H. remember (Ret None) as r eqn:Hr.
  induction H as [ | pre k t0 sets t1 a Hfan Hok
                   | pre k t0 sets t1 a evals rest atts r Hfan Hfail Hrel Hd Hrest IH
                   | pre k t0 sets t1 a evals e Hfan Hfail Hrel Hd ];
    try discriminate; intros Hk; [lia|].
  destruct k as [|k].
  - inversion Hrest; subst.
    exists (EvTime t0 :: sets ++ [EvTime t1]), evals. split; [by norm_app | done].
  - destruct (IH Hr) as (mid & evals' & -> & Hrel'); [lia|].
    exists (EvTime t0 :: sets ++ EvTime t1 :: evals ++ EvSleep (retry_delay self) :: mid),
      evals'.
    split; [by norm_app | done].
Qed.

Lemma sets_are_lock_calls l sets :
  Forall2 (is_set_nx resource val ttl) l sets -> Forall lock_call sets.
Proof. induction 1 as [|s e l sets [r ->] _ IH]; constructor; simpl; auto. Qed.

Lemma releases_are_lock_calls l evals :
  Forall2 (is_release resource val) l evals -> Forall lock_call evals.
Proof. induction 1 as [|s e l evals [r ->] _ IH]; constructor; simpl; auto. Qed.

Lemma rounds_calls pre k evs atts r :
  lock_rounds pre k evs atts r -> Forall lock_call evs.
Proof.
  induction 1 as [ | pre k t0 sets t1 a Hfan Hok
                   | pre k t0 sets t1 a evals rest atts r Hfan Hfail Hrel Hd Hrest IH
                   | pre k t0 sets t1 a evals e Hfan Hfail Hrel Hd ];
    try (destruct Hfan as [_ Hsets%sets_are_lock_calls _ _]);
    try (apply releases_are_lock_calls in Hrel).
  - constructor.
  - constructor; [exact I|]. apply Forall_app. split; [done|]. by repeat constructor.
  - constructor; [exact I|]. apply Forall_app. split; [done|].
    constructor; [exact I|]. apply Forall_app. split; [done|]. by constructor.
  - constructor; [exact I|]. apply Forall_app. split; [done|].
    constructor; [exact I|]. apply Forall_app. split; [done|]. by repeat constructor.
Qed.

(** The attempts that a run records are those its calls show. *)
Lemma shown_sets (l : list Server) (sets : list Event) :
  Forall2 (is_set_nx resource val ttl) l sets ->
  forall (t0 c : Z) (rest : list Event),
    attempts_shown val ttl drift (Some (t0, c)) (sets ++ rest)
    = attempts_shown val ttl drift (Some (t0, c + count_accepted sets)) rest.
Proof.
  induction 1 as [|s e l sets [r ->] _ IH]; intros t0 c rest.
  - unfold count_accepted. simpl. by rewrite Z.add_0_r.
  - cbn [app attempts_shown]. rewrite IH, count_accepted_cons.
    do 3 f_equal. destruct (accepted (EvSet s resource val NX ttl r)); lia.
Qed.

Lemma shown_releases (l : list Server) (evals : list Event) :
  Forall2 (is_release resource val) l evals ->
  forall rest : list Event,
    attempts_shown val ttl drift None (evals ++ rest)
    = attempts_shown val ttl drift None rest.
Proof. induction 1 as [|s e l evals [r ->] _ IH]; intros rest; [done | apply IH]. Qed.

Lemma rounds_shown pre k evs atts r :
  lock_rounds pre k evs atts r -> attempts_shown val ttl drift None evs = atts.
Proof.
  induction 1 as [ | pre k t0 sets t1 a Hfan Hok
                   | pre k t0 sets t1 a evals rest atts r Hfan Hfail Hrel Hd Hrest IH
                   | pre k t0 sets t1 a evals e Hfan Hfail Hrel Hd ];
    [reflexivity| | |];
    destruct Hfan as [_ Hsets _ ->]; cbn [attempts_shown];
    rewrite (shown_sets _ _ Hsets); cbn [attempts_shown]; rewrite Z.add_0_l;
    f_equal.
  - rewrite (shown_releases _ _ Hrel). exact IH.
  - by rewrite (shown_releases _ _ Hrel).
Qed.

End Runs.

(** The two ways a run of [lock] goes on after the token. *)
Lemma shape_cases (env : Env) (self : Redlock) (resource : string) (ttl : Z)
    (val : string) (pre evs : list Event) (atts : list Attempt)
    (r : outcome (option Lock)) :
  lock_shape env self resource ttl val pre evs atts r ->
  (exists drift,
     lock_drift ttl = Ret drift /\
     lock_rounds env self resource ttl val drift pre
                 (Z.to_nat (retry_count self)) evs atts r) \/
  (exists e, lock_drift ttl = Raise e /\ evs = [] /\ atts = [] /\ r = Raise e).
Proof.
  unfold lock_shape. destruct (lock_drift ttl) as [drift|e].
  - intros H. left. by exists drift.
  - intros (-> & -> & ->). right. by exists e.
Qed.

Lemma shape_calls (env : Env) (self : Redlock) (resource : string) (ttl : Z)
    (val : string) (pre evs : list Event) (atts : list Attempt)
    (r : outcome (option Lock)) :
  lock_shape env self resource ttl val pre evs atts r ->
  Forall (lock_call resource ttl val) evs.
Proof.
  intros [(drift & _ & H) | (e & _ & -> & _)]%shape_cases;
    [by eapply rounds_calls | constructor].
Qed.

(** ** What a run costs *)

Lemma sets_counted (name val : string) (ttl : Z) (l : list Server) (sets : list Event) :
  Forall2 (is_set_nx name val ttl) l sets ->
  length (List.filter is_set sets) = length l /\ List.filter is_eval sets = [].
Proof.
  induction 1 as [|s e l sets [r ->] _ [IH1 IH2]]; simpl; [done|].
  by rewrite IH1, IH2.
Qed.

Lemma releases_counted (name val : string) (l : list Server) (evals : list Event) :
  Forall2 (is_release name val) l evals ->
  length (List.filter is_eval evals) = length l /\ List.filter is_set evals = [].
Proof.
  induction 1 as [|s e l evals [r ->] _ [IH1 IH2]]; simpl; [done|].
  by rewrite IH1, IH2.
Qed.

Lemma rounds_counted (env : Env) (self : Redlock) (name : string) (ttl : Z)
    (val : string) (drift : Z) (pre : list Event) (k : nat) (evs : list Event)
    (atts : list Attempt) (r : outcome (option Lock)) :
  lock_rounds env self name ttl val drift pre k evs atts r ->
  (length (List.filter is_set evs) = length atts * length (servers self))%nat /\
  (length (List.filter is_eval evs)
   = (length atts - (if is_handle r then 1 else 0)) * length (servers self))%nat.
Proof.
  induction 1 as [ | pre k t0 sets t1 a Hfan Hok
                   | pre k t0 sets t1 a evals rest atts r Hfan Hfail Hrel Hd Hrest [IH1 IH2]
                   | pre k t0 sets t1 a evals e Hfan Hfail Hrel Hd ];
    try (destruct Hfan as [_ Hsets _ _];
         destruct (sets_counted _ _ _ _ _ Hsets) as [Hs1 Hs2]);
    try (destruct (releases_counted _ _ _ _ Hrel) as [Hr1 Hr2]);
    cbn [List.filter is_set is_eval is_handle length];
    rewrite ?List.filter_app; cbn [List.filter is_set is_eval];
    rewrite ?List.filter_app; cbn [List.filter is_set is_eval];
    rewrite ?Hs2, ?Hr2, ?length_app; cbn [length app];
    rewrite ?length_app; cbn [length]; try lia.
  assert (Hpos : is_handle r = true -> (1 <= length atts)%nat).
  { clear -Hrest. destruct r as [[h|]|e]; try discriminate. intros _.
    apply rounds_result in Hrest as (fails & b & -> & _).
    rewrite length_app. simpl. lia. }
  destruct (is_handle r); [specialize (Hpos eq_refl)|]; nia.
Qed.

Lemma shape_counted (env : Env) (self : Redlock) (name : string) (ttl : Z)
    (val : string) (pre evs : list Event) (atts : list Attempt)
    (r : outcome (option Lock)) :
  lock_shape env self name ttl val pre evs atts r ->
  (length (List.filter is_set evs) = length atts * length (servers self))%nat /\
  (length (List.filter is_eval evs)
   = (length atts - (if is_handle r then 1 else 0)) * length (servers self))%nat.
Proof.
  intros [(drift & _ & H) | (e & _ & -> & -> & ->)]%shape_cases;
    [by eapply rounds_counted | done].
Qed.

(** ** Runs of [get_unique_id] and [lock] *)

Lemma random_string_run (env : Env) (k : nat) : forall w : World,
  exists s,
    random_string env k w
    = (Ret s, MkWorld (trace w ++ map EvChoice (list_ascii_of_string s)) (attempts w))
    /\ String.length s = k.
Proof.
  induction k as [|k IH]; intros w; cbn [random_string].
  - exists EmptyString. unfold ret. simpl. rewrite app_nil_r. by destruct w.
  - unfold bind at 1. unfold random_choice at 1.
    set (c := match String.get _ CHARACTERS with Some c => c | None => _ end).
    destruct (IH (MkWorld (trace w ++ [EvChoice c]) (attempts w))) as (s & Hrun & Hlen).
    exists (String c s). unfold bind. rewrite Hrun. unfold ret. simpl.
    split; [by norm_app | by rewrite Hlen].
Qed.

Lemma lock_run (env : Env) (self : Redlock) (resource : string) (ttl : Z) (w : World) :
  exists val evs atts r,
    fst (get_unique_id env w) = Ret val /\
    String.length val = 22%nat /\
    lock env self resource ttl w
    = (r, MkWorld (trace w ++ map EvChoice (list_ascii_of_string val) ++ evs)
                  (attempts w ++ atts)) /\
    lock_shape env self resource ttl val
      (trace w ++ map EvChoice (list_ascii_of_string val)) evs atts r.
Proof.
  destruct (random_string_run env 22 w) as (val & Hid & Hlen).
  unfold lock, lock_shape, bind, of_outcome.
  change (get_unique_id env w) with (random_string env 22 w).
  rewrite Hid. destruct (lock_drift ttl) as [drift|e].
  - destruct (lock_while_rounds env self resource ttl val drift
                (Z.to_nat (retry_count self - 0)) 0
                (MkWorld (trace w ++ map EvChoice (list_ascii_of_string val)) (attempts w)))
      as (evs & atts & r & Hrun & Hshape); [lia|].
    rewrite Z.sub_0_r in Hshape.
    exists val, evs, atts, r. rewrite Hrun. cbn [trace attempts fst].
    split; [reflexivity|]. split; [exact Hlen|]. split; [|exact Hshape].
    by rewrite <- app_assoc.
  - exists val, [], [], (Raise e). cbn [trace attempts fst].
    split; [reflexivity|]. split; [exact Hlen|]. rewrite !app_nil_r.
    split; [reflexivity|]. repeat split.
Qed.

(** The fuel that [lock] hands to the loop is enough: more fuel changes
    nothing. *)
Lemma lock_while_fuel (env : Env) (self : Redlock) (resource : string) (ttl : Z)
    (val : string) (drift : Z) : forall (fuel extra : nat) (retry : Z) (w : World),
  (Z.to_nat (retry_count self - retry) <= fuel)%nat ->
  lock_while env (fuel + extra) self resource ttl val drift retry w
  = lock_while env fuel self resource ttl val drift retry w.
Proof.
  induction fuel as [|fuel IH]; intros extra retry w Hfuel.
  - assert (Hge : (retry <? retry_count self) = false) by (apply Z.ltb_ge; lia).
    destruct extra; simpl; by rewrite Hge.
  - simpl. destruct (retry <? retry_count self) eqn:Hlt; [|done].
    apply Z.ltb_lt in Hlt. unfold bind.
    destruct (lock_round env self resource ttl val drift w) as [[[h|]|e] w1]; try done.
    apply IH. lia.
Qed.

(** ** Construction *)

Lemma connect_all_length (env : Env) (l : list connection_info) :
  forall acc servers,
    connect_all env l acc = Ret servers ->
    length servers = (length acc + length l)%nat.
Proof.
  induction l as [|info l IH]; intros acc servers H; simpl in *.
  - inversion H. lia.
  - destruct (new_server env info); [|discriminate].
    apply IH in H. rewrite length_app in H. simpl in H. lia.
Qed.

(** C2: for every list of N connection descriptors from which a manager is
    built, the quorum of the manager is floor(N/2) + 1. *)
Theorem quorum_is_floor_half_plus_one (env : Env)
    (connection_list : list connection_info) (rc : option Z) (rd : option Q)
    (self : Redlock) :
  init env connection_list rc rd = Ret self ->
  quorum self = Z.of_nat (length connection_list) / 2 + 1.
Proof.
  unfold init. intros H.
  destruct (connect_all env connection_list []) as [l|e]; [|discriminate].
  destruct (Z.of_nat (length l) <? Z.of_nat (length connection_list) / 2 + 1);
    [discriminate|].
  by inversion H.
Qed.

Lemma quorum_of_five_peers :
  exists self, init plain_env five_urls None None = Ret self /\ quorum self = 3.
Proof.
  eexists. split; [reflexivity|].
  apply (quorum_is_floor_half_plus_one plain_env five_urls None None).
  reflexivity.
Defined.

(** The only way to reach [CannotObtainLock]: an empty list. *)
Lemma init_cannot_obtain_lock (env : Env) (l : list connection_info)
    (rc : option Z) (rd : option Q) (m : string) :
  init env l rc rd = Raise (CannotObtainLock m) -> l = [].
Proof.
  unfold init. intros H.
  destruct (connect_all env l []) as [servers|e] eqn:Hc.
  - apply connect_all_length in Hc. simpl in Hc.
    destruct (Z.of_nat (length servers) <? Z.of_nat (length l) / 2 + 1) eqn:Hlt;
      [|discriminate].
    apply Z.ltb_lt in Hlt. rewrite Hc in Hlt.
    destruct l; [done|]. simpl length in Hlt.
    assert (Z.of_nat (S (length l)) / 2 < Z.of_nat (S (length l)))
      by (apply Z.div_lt; lia).
    lia.
  - exfalso. clear -Hc H. revert Hc. generalize (@nil Server).
    induction l as [|info l IH]; intros acc Hc; simpl in Hc; [discriminate|].
    destruct (new_server env info).
    + eauto.
    + inversion Hc; subst. discriminate.
Qed.

(** A descriptor that cannot be built ends the constructor with [Warning],
    however many of the others can be built. *)
Lemma init_raises_warning (env : Env) (l : list connection_info)
    (rc : option Z) (rd : option Q) (info : connection_info) (e : exn) :
  In info l -> new_server env info = Raise e ->
  exists m, init env l rc rd = Raise (Warning m).
Proof.
  intros Hin Hbad. unfold init.
  assert (Hall : forall acc, exists m, connect_all env l acc = Raise (Warning m)).
  { induction l as [|x l IH]; [destruct Hin|]. intros acc. simpl.
    destruct Hin as [->|Hin].
    - rewrite Hbad. by eexists.
    - destruct (new_server env x); [by apply IH | by eexists]. }
  destruct (Hall []) as [m ->]. by exists m.
Qed.

Lemma init_of_no_peer (env : Env) (rc : option Z) (rd : option Q) :
  init env [] rc rd
  = Raise (CannotObtainLock "Failed to connect to the majority of redis servers").
Proof. reflexivity. Qed.

(** C6: with three descriptors of which the first cannot be built, two
    peers, which is the quorum, are constructible, and the constructor
    raises [Warning]; with three descriptors that cannot be built it raises
    [Warning] as well, not [CannotObtainLock]. *)
Theorem init_raises_warning_on_a_bad_descriptor :
  constructible plain_env one_bad_descriptor = 2 /\
  Z.of_nat (length one_bad_descriptor) / 2 + 1 = 2 /\
  init plain_env one_bad_descriptor None None
  = Raise (Warning "__init__() got an unexpected keyword argument") /\
  constructible plain_env all_bad_descriptors = 0 /\
  init plain_env all_bad_descriptors None None
  = Raise (Warning "__init__() got an unexpected keyword argument").
Proof. repeat split; vm_compute; reflexivity. Qed.

(** ** Drift *)

Lemma lock_attempts_validity (env : Env) (self : Redlock) (resource : string)
    (ttl : Z) (w : World) :
  exists atts,
    attempts (snd (lock env self resource ttl w)) = attempts w ++ atts /\
    forall drift, lock_drift ttl = Ret drift ->
      Forall (fun a => att_validity a = ttl - elapsed_time a - drift) atts.
Proof.
  destruct (lock_run env self resource ttl w)
    as (val & evs & atts & r & _ & _ & Hrun & Hshape).
  exists atts. rewrite Hrun. split; [reflexivity|].
  intros drift Hdrift.
  apply shape_cases in Hshape as [(d & Hd & Hshape) | (e & He & _)];
    [|congruence].
  assert (d = drift) by congruence. subst d.
  apply rounds_attempts in Hshape.
  eapply Forall_impl; [exact Hshape|]. by intros a (_ & ? & _).
Qed.

(** C7, as the specification words it, fails at ttl = 150: the drift is
    3 ms, not 150 * 0.01 + 2 = 3.5 ms. *)
Lemma drift_of_150_is_not_3_5 :
  ~ (forall drift, lock_drift 150 = Ret drift ->
       inject_Z drift == inject_Z 150 * (1 # 100) + 2)%Q.
Proof.
  intros H. specialize (H 3 ltac:(vm_compute; reflexivity)).
  unfold Qeq in H. simpl in H. lia.
Qed.

(** Beyond 53 bits the float no longer holds [ttl], and the drift leaves
    [ttl quot 100 + 2], as at [2 ^ 53 + 7].  From [2 ^ 1024 - 2 ^ 970] on,
    line 79 raises. *)
Lemma drift_beyond_the_exact_range :
  lock_drift (2 ^ 53 + 7) = Ret (Z.quot (2 ^ 53 + 7) 100 + 3) /\
  lock_drift 100000000000000099 = Ret (Z.quot 100000000000000099 100 + 3) /\
  (exists drift, lock_drift (2 ^ 1024 - 2 ^ 970 - 1) = Ret drift) /\
  lock_drift (2 ^ 1024 - 2 ^ 970)
  = Raise (OverflowError "int too large to convert to float").
Proof.
  split; [vm_compute; reflexivity|]. split; [vm_compute; reflexivity|].
  split; [eexists; vm_compute; reflexivity | vm_compute; reflexivity].
Qed.

(** C7, amended: for a [ttl] that a float holds exactly (below 2 ^ 53 in
    magnitude), the drift is ttl * 0.01 truncated toward zero to whole
    milliseconds, plus 2, that is (ttl - (ttl rem 100)) / 100 + 2; and every
    attempt of a [lock] call computes its validity with this one drift. *)
Theorem drift_is_truncated_and_fixed (env : Env) (self : Redlock)
    (resource : string) (ttl : Z) (w : World) :
  Z.abs ttl < 2 ^ 53 ->
  lock_drift ttl = Ret (Z.quot ttl 100 + 2) /\
  100 * Z.quot ttl 100 = ttl - Z.rem ttl 100 /\
  exists atts,
    attempts (snd (lock env self resource ttl w)) = attempts w ++ atts /\
    Forall (fun a => att_validity a = ttl - elapsed_time a - (Z.quot ttl 100 + 2)) atts.
Proof.
  intros Httl. pose proof (lock_drift_quot ttl Httl) as Hd.
  split; [exact Hd|]. split; [pose proof (Z.quot_rem' ttl 100); lia|].
  destruct (lock_attempts_validity env self resource ttl w) as (atts & Hatts & Hall).
  exists atts. split; [exact Hatts | by apply Hall].
Qed.

Lemma drift_of_ten_seconds :
  lock_drift 10000 = Ret 102.
Proof.
  exact (proj1 (drift_is_truncated_and_fixed plain_env three_peers "res" 10000 w0
                  ltac:(vm_compute; reflexivity))).
Defined.

(** ** Release *)

(** What the unlock script does to a keyspace: the key goes away exactly
    when it holds the given value. *)
Lemma peer_eval_unlock_script (st : gmap string (string * Z)) (k v : string) :
  peer_eval st unlock_script 1 [k; v]
  = match st !! k with
    | Some (v', _) =>
        if decide (v' = v) then (Ret (PyInt 1), delete k st) else (Ret (PyInt 0), st)
    | None => (Ret (PyInt 0), st)
    end.
Proof.
  unfold peer_eval, unlock_script. simpl.
  destruct (st !! k) as [[v' px]|] eqn:Hk; simpl.
  - destruct (decide (v' = v)) as [->|Hne].
    + destruct (decide (LvStr v = LvStr v)); [|done]. simpl. by rewrite Hk.
    + destruct (decide (LvStr v' = LvStr v)) as [Heq|_]; [|done].
      by inversion Heq.
  - by destruct (decide (LvFalse = LvStr v)).
Qed.

(** C8: [unlock] issues the check-and-delete script once against every
    peer, in order, with the resource and the token of the handle; it
    returns normally whatever the peers answer or raise; and on a peer the
    script deletes the key only if the stored value equals the token. *)
Theorem unlock_releases_every_peer_and_never_raises (env : Env) (self : Redlock)
    (h : Lock) (w : World) :
  (exists evals,
     unlock env self h w = (Ret tt, MkWorld (trace w ++ evals) (attempts w)) /\
     Forall2 (is_release (resource h) (key h)) (servers self) evals) /\
  (forall (st : gmap string (string * Z)) (px : Z) (stored : string),
     st !! resource h = Some (stored, px) ->
     snd (peer_eval st unlock_script 1 [resource h; key h])
     = if decide (stored = key h) then delete (resource h) st else st) /\
  (forall st : gmap string (string * Z),
     st !! resource h = None ->
     snd (peer_eval st unlock_script 1 [resource h; key h]) = st).
Proof.
  split; [apply unlock_servers_run|]. split.
  - intros st px stored Hst. rewrite peer_eval_unlock_script, Hst.
    by destruct (decide (stored = key h)).
  - intros st Hst. by rewrite peer_eval_unlock_script, Hst.
Qed.

Lemma unlock_with_flaky_peers :
  fst (unlock (redis_env flaky tick_clock count_rnd) three_peers held_lock w0) = Ret tt /\
  snd (peer_eval {[ "res" := ("other", 10000) ]} unlock_script 1
         [resource held_lock; key held_lock])
  = {[ "res" := ("other", 10000) ]}.
Proof.
  destruct (unlock_releases_every_peer_and_never_raises
              (redis_env flaky tick_clock count_rnd) three_peers held_lock w0)
    as [(evals & Hrun & _) [Hdel _]].
  split.
  - rewrite Hrun. reflexivity.
  - rewrite (Hdel {[ "res" := ("other", 10000) ]} 10000 "other");
      vm_compute; reflexivity.
Defined.

(** ** Acquisition *)

Lemma tick_clock_monotone (faults : list Event -> Server -> fault)
    (rnd : list Event -> nat) :
  monotone_clock (redis_env faults tick_clock rnd).
Proof.
  intros tr tr'. simpl. unfold tick_clock. rewrite length_app. lia.
Qed.

(** C1, as the specification words it, fails in its last part: when the
    wall clock is set back during the fan-out, the elapsed time is negative
    and the validity of the handle exceeds [ttl - drift]. *)
Lemma validity_with_the_clock_set_back :
  ~ (forall (env : Env) (self : Redlock) (name : string) (ttl : Z) (w : World)
            (h : Lock) (drift : Z),
       fst (lock env self name ttl w) = Ret (Some h) ->
       lock_drift ttl = Ret drift ->
       0 < validity h <= ttl - drift).
Proof.
  intros H.
  specialize (H back_env three_peers "res" 10000 w0
                (MkLock 9938 "res" "dkryFMT07elszGNU18fmtA") 102
                ltac:(vm_compute; reflexivity) ltac:(vm_compute; reflexivity)).
  unfold validity in H. lia.
Qed.

(** C1, amended.  [lock] returns a handle exactly when one of its attempts
    counted a quorum of accepted sets and computed a positive validity
    [ttl - elapsed - drift]; the attempts are those that the calls of the
    run show, each between two clock readings.  The handle is returned at
    once: the last calls of the trace are the fan-out of that attempt (one
    conditional set per peer between two clock readings) and no release
    follows.  The validity of the handle is positive; it is at most
    [ttl - drift] when the readings of the clock do not decrease. *)
Theorem lock_succeeds_iff_quorum_and_validity (env : Env) (self : Redlock)
    (name : string) (ttl : Z) (w : World) :
  exists val evs atts,
    trace (snd (lock env self name ttl w))
    = trace w ++ map EvChoice (list_ascii_of_string val) ++ evs /\
    attempts (snd (lock env self name ttl w)) = attempts w ++ atts /\
    (forall drift, lock_drift ttl = Ret drift ->
       atts = attempts_shown val ttl drift None evs /\
       Forall (fun a => att_validity a = ttl - elapsed_time a - drift) atts) /\
    ((exists h, fst (lock env self name ttl w) = Ret (Some h))
     <-> Exists (fun a => quorum self <= n a /\ 0 < att_validity a) atts) /\
    forall h, fst (lock env self name ttl w) = Ret (Some h) ->
      exists drift pre t0 sets t1,
        lock_drift ttl = Ret drift /\
        h = MkLock (ttl - (t1 - t0) - drift) name val /\
        0 < validity h /\
        (monotone_clock env -> validity h <= ttl - drift) /\
        trace (snd (lock env self name ttl w)) = pre ++ EvTime t0 :: sets ++ [EvTime t1] /\
        Forall2 (is_set_nx name val ttl) (servers self) sets /\
        quorum self <= count_accepted sets.
Proof.
  destruct (lock_run env self name ttl w)
    as (val & evs & atts & r & _ & _ & Hrun & Hshape).
  exists val, evs, atts. rewrite Hrun. cbn [fst snd trace attempts].
  split; [reflexivity|]. split; [reflexivity|].
  apply shape_cases in Hshape as [(drift & Hdrift & Hshape) | (e & He & -> & -> & ->)].
  - pose proof (rounds_attempts _ _ _ _ _ _ _ _ _ _ _ Hshape) as Hatts.
    pose proof (rounds_result _ _ _ _ _ _ _ _ _ _ _ Hshape) as Hres.
    split.
    { intros d Hd. assert (d = drift) by congruence. subst d. split.
      - symmetry. by eapply rounds_shown.
      - eapply Forall_impl; [exact Hatts|]. by intros a (_ & ? & _). }
    split.
    + split.
      * intros [h ->]. destruct Hres as (fails & a & -> & _ & [Hv Hn] & _).
        apply Exists_app. right. apply Exists_cons_hd. split; assumption.
      * intros Hex. destruct r as [[h|]|e]; [by exists h| |];
          destruct Hres as [Hall _]; exfalso;
          apply Exists_exists in Hex as (a & Hin & Hn & Hv);
          rewrite Forall_forall in Hall; apply (Hall a Hin); split; assumption.
    + intros h ->.
      destruct (rounds_acquired_trace _ _ _ _ _ _ _ _ _ _ _ Hshape)
        as (mid & t0 & sets & t1 & a & -> & Hfan & [Hv Hn] & ->).
      destruct (fanout_attempt _ _ _ _ _ _ _ _ _ _ _ Hfan) as (_ & Hcount & Hval & Hmono).
      exists drift, (trace w ++ map EvChoice (list_ascii_of_string val) ++ mid),
        t0, sets, t1.
      destruct Hfan as [_ Hsets _ Ha].
      split; [exact Hdrift|]. split; [by rewrite Ha|]. split; [exact Hv|].
      split; [intros Hm; specialize (Hmono Hm); unfold validity; lia|].
      split; [by norm_app|]. split; [exact Hsets | by rewrite <- Hcount].
  - split; [intros d Hd; congruence|]. split.
    + split; [intros [h Hh]; discriminate | intros Hex; inversion Hex].
    + intros h Hh. discriminate.
Qed.

Lemma lock_with_three_healthy_peers :
  exists h,
    fst (lock plain_env three_peers "res" 10000 w0) = Ret (Some h) /\
    0 < validity h /\ validity h <= 10000 - 102.
Proof.
  destruct (lock_succeeds_iff_quorum_and_validity plain_env three_peers "res" 10000 w0)
    as (val & evs & atts & _ & _ & _ & _ & Hh).
  set (h := MkLock 9858 "res" "dkryFMT07elszGNU18fmtA").
  assert (Hrun : fst (lock plain_env three_peers "res" 10000 w0) = Ret (Some h))
    by (vm_compute; reflexivity).
  destruct (Hh h Hrun) as (drift & pre & t0 & sets & t1 & Hd & _ & Hpos & Hle & _).
  assert (Hdrift : lock_drift 10000 = Ret 102) by (vm_compute; reflexivity).
  assert (drift = 102) by congruence. subst drift.
  exists h. split; [exact Hrun|]. split; [exact Hpos|].
  apply Hle. apply tick_clock_monotone.
Defined.

(** C5, as the specification words it, fails: the constructor accepts a
    negative retry delay, [time.sleep] refuses it with a [ValueError], and
    nothing in [lock] catches the error.  The call ends after one attempt,
    with neither of the two outcomes. *)
Lemma lock_with_a_negative_delay :
  ~ (forall self,
       init down_env five_urls (Some 3) (Some (-1 # 10)) = Ret self ->
       fst (lock down_env self "res" 10000 w0) = Ret None \/
       exists h, fst (lock down_env self "res" 10000 w0) = Ret (Some h)).
Proof.
  intros H.
  destruct (H _ ltac:(vm_compute; reflexivity)) as [Hnone|[h Hh]];
    vm_compute in *; discriminate.
Qed.

(** So does a [ttl] beyond the range of a float: line 79 raises before the
    first attempt. *)
Lemma lock_with_a_ttl_beyond_floats :
  fst (lock down_env three_peers "res" (2 ^ 1024) w0)
  = Raise (OverflowError "int too large to convert to float") /\
  attempts (snd (lock down_env three_peers "res" (2 ^ 1024) w0)) = [].
Proof. split; vm_compute; reflexivity. Qed.

(** [time.sleep] of Python 3 accepts the lengths from 0 up to its range. *)
Lemma py_sleep_accepts (seconds : Q) :
  (0 <= seconds)%Q ->
  (seconds * inject_Z (10 ^ 9) < inject_Z (2 ^ 63))%Q ->
  py_sleep seconds = Ret tt.
Proof.
  intros Hpos Hlt. unfold py_sleep.
  assert (H1 : Qle_bool (inject_Z (2 ^ 63)) (seconds * inject_Z (10 ^ 9)) = false).
  { destruct (Qle_bool _ _) eqn:Hle; [|reflexivity].
    apply Qle_bool_iff in Hle. exfalso. by apply (Qlt_not_le _ _ Hlt). }
  assert (H2 : Qle_bool (inject_Z (- 2 ^ 63)) (seconds * inject_Z (10 ^ 9)) = true).
  { apply Qle_bool_iff. apply Qle_trans with 0%Q; [done|].
    apply Qmult_le_0_compat; [exact Hpos | done]. }
  rewrite H1, H2. simpl. apply Qle_bool_iff in Hpos. by rewrite Hpos.
Qed.

(** C5, amended: with a retry delay that [time.sleep] accepts and a [ttl]
    in the range of a float, [lock] ends in one of two ways, the handle or
    [False], and never by an exception; when every attempt fails the
    success condition it makes exactly [retry_count] attempts (none for a
    negative count), each with a conditional set to every peer, and returns
    [False].  The attempts are those that the calls of the run show. *)
Theorem lock_fails_after_retry_count_attempts (env : Env) (self : Redlock)
    (name : string) (ttl : Z) (w : World) :
  time_sleep env (retry_delay self) = Ret tt ->
  Z.abs ttl < 2 ^ 1023 ->
  exists val evs atts drift,
    lock_drift ttl = Ret drift /\
    trace (snd (lock env self name ttl w))
    = trace w ++ map EvChoice (list_ascii_of_string val) ++ evs /\
    attempts (snd (lock env self name ttl w)) = attempts w ++ atts /\
    atts = attempts_shown val ttl drift None evs /\
    (fst (lock env self name ttl w) = Ret None \/
     exists h, fst (lock env self name ttl w) = Ret (Some h)) /\
    (Forall (fun a => ~ succeeds self a) atts ->
     fst (lock env self name ttl w) = Ret None /\
     Z.of_nat (length atts) = Z.max 0 (retry_count self) /\
     (length (List.filter is_set evs) = length atts * length (servers self))%nat).
Proof.
  intros Hdelay Httl.
  destruct (lock_drift_defined ttl Httl) as [drift Hdrift].
  destruct (lock_run env self name ttl w)
    as (val & evs & atts & r & _ & _ & Hrun & Hshape).
  exists val, evs, atts, drift. rewrite Hrun. cbn [fst snd trace attempts].
  apply shape_cases in Hshape as [(d & Hd & Hshape) | (e & He & _)];
    [|congruence].
  assert (d = drift) by congruence. subst d.
  split; [exact Hdrift|]. split; [reflexivity|]. split; [reflexivity|].
  split; [symmetry; by eapply rounds_shown|].
  pose proof (rounds_result _ _ _ _ _ _ _ _ _ _ _ Hshape) as Hres.
  pose proof (rounds_counted _ _ _ _ _ _ _ _ _ _ _ Hshape) as [Hsets _].
  destruct r as [[h|]|e].
  - split; [right; by exists h|].
    intros Hall. exfalso.
    destruct Hres as (fails & a & -> & _ & Hok & _).
    apply Forall_app in Hall as [_ Hlast].
    inversion Hlast; subst. tauto.
  - split; [by left|]. intros _. split; [reflexivity|].
    destruct Hres as [_ Hlen]. split; [lia | exact Hsets].
  - destruct Hres as [_ Hneg]. congruence.
Qed.

Lemma lock_with_all_peers_down :
  fst (lock down_env three_peers "res" 10000 w0) = Ret None /\
  length (attempts (snd (lock down_env three_peers "res" 10000 w0))) = 3%nat.
Proof.
  destruct (lock_fails_after_retry_count_attempts down_env three_peers "res" 10000 w0)
    as (val & evs & atts & drift & _ & _ & Hatts & _ & _ & Hall).
  - apply py_sleep_accepts; vm_compute; [discriminate | reflexivity].
  - vm_compute. reflexivity.
  - vm_compute in Hatts. subst atts.
    destruct Hall as (Hnone & Hlen & _).
    + repeat constructor; unfold succeeds; simpl; lia.
    + split; [exact Hnone|]. vm_compute. reflexivity.
Defined.

(** ** Tokens *)

(** C3, as the specification words it, fails: when the first attempt fails,
    the second attempt of the same call carries the same token. *)
Lemma retry_reuses_the_token :
  ~ NoDup (map token (attempts (snd (lock down_env three_peers "res" 10000 w0)))).
Proof.
  vm_compute. intros H. apply NoDup_cons in H as [Hnotin _].
  apply Hnotin. apply elem_of_cons. by left.
Qed.

(** C3, amended: a [lock] call generates one token, by the 22 calls to
    [random.choice] that open its trace, and every attempt of the call uses
    that token: every later call of the trace is a clock reading, a sleep, a
    conditional set with this token or a release with this token. *)
Theorem lock_generates_one_token (env : Env) (self : Redlock)
    (name : string) (ttl : Z) (w : World) :
  exists val evs atts,
    fst (get_unique_id env w) = Ret val /\
    String.length val = 22%nat /\
    trace (snd (lock env self name ttl w))
    = trace w ++ map EvChoice (list_ascii_of_string val) ++ evs /\
    Forall (lock_call name ttl val) evs /\
    attempts (snd (lock env self name ttl w)) = attempts w ++ atts /\
    Forall (fun a => token a = val) atts.
Proof.
  destruct (lock_run env self name ttl w)
    as (val & evs & atts & r & Hid & Hlen & Hrun & Hshape).
  exists val, evs, atts. rewrite Hrun. cbn [fst snd trace attempts].
  split; [exact Hid|]. split; [exact Hlen|]. split; [reflexivity|].
  split; [exact (shape_calls _ _ _ _ _ _ _ _ _ Hshape)|]. split; [reflexivity|].
  apply shape_cases in Hshape as [(drift & _ & Hshape) | (e & _ & _ & -> & _)];
    [|constructor].
  apply rounds_attempts in Hshape.
  eapply Forall_impl; [exact Hshape|]. by intros a (? & _).
Qed.

(** ** Cleanup after a failed attempt *)

Lemma replay_app (ran : list Event -> Server -> bool) (s : Server) (a : list Event) :
  forall (h : list Event) (st : gmap string (string * Z)) (b : list Event),
    replay ran s h st (a ++ b) = replay ran s (h ++ a) (replay ran s h st a) b.
Proof.
  induction a as [|e a IH]; intros h st b; simpl.
  - by rewrite app_nil_r.
  - rewrite IH, <- app_assoc. reflexivity.
Qed.

Lemma store_of_app (ran : list Event -> Server -> bool) (tr evs : list Event)
    (s : Server) :
  store_of ran (tr ++ evs) s = replay ran s tr (store_of ran tr s) evs.
Proof. unfold store_of. by rewrite replay_app. Qed.

Section Cleanup.
Variables (ran : list Event -> Server -> bool) (s : Server) (name val : string).
Local Abbreviation clear := (clear name val).

Lemma apply_release_clear (h : list Event) (st : gmap string (string * Z))
    (s' : Server) (r : outcome pyval) :
  (s' = s /\ took_effect ran h s' r = true) \/ clear st ->
  clear (apply_event ran s h st (EvEval s' unlock_script 1 [name; val] r)).
Proof.
  intros H. unfold apply_event.
  destruct (decide (s' = s)) as [->|Hne];
    [destruct (took_effect ran h s r) eqn:Heff|];
    try (destruct H as [[? ?]|H]; [congruence | exact H]).
  rewrite peer_eval_unlock_script.
  destruct (st !! name) as [[v' px']|] eqn:Hst.
  - destruct (decide (v' = val)) as [->|Hv]; simpl; intros px.
    + by rewrite lookup_delete_eq.
    + rewrite Hst. congruence.
  - simpl. intros px. by rewrite Hst.
Qed.

Lemma releases_keep_clear (evals : list Event) :
  forall (l : list Server) (h : list Event) (st : gmap string (string * Z)),
    Forall2 (is_release name val) l evals ->
    clear st -> clear (replay ran s h st evals).
Proof.
  induction evals as [|e evals IH]; intros l h st Hrel Hclear; [exact Hclear|].
  inversion Hrel as [|s' ? l' ? [r ->] Hrest]; subst. cbn [replay].
  eapply IH; [exact Hrest|]. apply apply_release_clear. by right.
Qed.

Lemma answered_release_clears (evals : list Event) :
  forall (l : list Server) (h : list Event) (st : gmap string (string * Z))
         (v : pyval),
    Forall2 (is_release name val) l evals ->
    In (EvEval s unlock_script 1 [name; val] (Ret v)) evals ->
    clear (replay ran s h st evals).
Proof.
  induction evals as [|e evals IH]; intros l h st v Hrel Hin; [destruct Hin|].
  inversion Hrel as [|s' ? l' ? [r' ->] Hrest]; subst. cbn [replay].
  destruct Hin as [Heq|Hin].
  - inversion Heq; subst. eapply releases_keep_clear; [exact Hrest|].
    apply apply_release_clear. by left.
  - by eapply IH.
Qed.

End Cleanup.

(** C4, as the specification words it, fails in its last part: peer a
    accepted the set of the first attempt, no release reached it, and after
    the third failed attempt it still holds the key of this call. *)
Lemma unreachable_peer_retains_the_key :
  ~ (fst (lock cut_env three_peers "res" 10000 w0) = Ret None ->
     forall s val,
       In s (servers three_peers) ->
       fst (get_unique_id cut_env w0) = Ret val ->
       ~ retains (reached cut_off)
           (trace (snd (lock cut_env three_peers "res" 10000 w0))) s "res" val).
Proof.
  intros H.
  apply (H ltac:(vm_compute; reflexivity) (peer "a") "dkryFMT07elszGNU18fmtA").
  - by left.
  - vm_compute. reflexivity.
  - exists 10000. vm_compute. reflexivity.
Qed.

(** In a list of releases, one per peer of [l], the last release of a
    peer of [l] is found, and it is one of the list. *)
Lemma last_release_found (s : Server) (name val : string) (pre evals post : list Event)
    (l : list Server) :
  Forall2 (is_release name val) l evals ->
  In s l ->
  Forall (fun e => is_release_of s name val e = false) post ->
  exists r,
    last_release (pre ++ evals ++ post) s name val
    = Some (EvEval s unlock_script 1 [name; val] r) /\
    In (EvEval s unlock_script 1 [name; val] r) evals.
Proof.
  intros Hrel Hin Hpost.
  assert (Hex : exists e, In e (rev evals) /\ is_release_of s name val e = true).
  { clear Hpost. induction Hrel as [|s' e l evals [r ->] _ IH]; [destruct Hin|].
    destruct Hin as [->|Hin].
    - exists (EvEval s unlock_script 1 [name; val] r). split.
      + apply in_rev. rewrite rev_involutive. by left.
      + simpl. by rewrite !bool_decide_eq_true_2.
    - destruct (IH Hin) as (e & He & Hf). exists e. split; [|exact Hf].
      simpl. apply in_or_app. by left. }
  destruct (List.find (is_release_of s name val) (rev evals)) as [e|] eqn:Hfind.
  - apply find_some in Hfind as Hsome. destruct Hsome as [He Hf].
    apply in_rev in He.
    assert (Hshape : exists r, e = EvEval s unlock_script 1 [name; val] r).
    { clear -Hrel He Hf. induction Hrel as [|s' e' l evals [r ->] _ IH]; [destruct He|].
      destruct He as [<-|He]; [|by apply IH].
      simpl in Hf. apply andb_prop in Hf as [Hs _].
      apply bool_decide_eq_true_1 in Hs. subst. by exists r. }
    destruct Hshape as [r ->]. exists r. split; [|exact He].
    unfold last_release. rewrite !rev_app_distr.
    assert (Hskip : forall k, List.find (is_release_of s name val) (rev post ++ k)
                              = List.find (is_release_of s name val) k).
    { intros k. apply Forall_rev in Hpost. clear -Hpost.
      induction Hpost as [|e0 post0 He0 _ IH]; [reflexivity|]. simpl. by rewrite He0. }
    rewrite <- app_assoc, Hskip. clear -Hfind.
    induction (rev evals) as [|e k IH]; [discriminate|]. simpl in *.
    destruct (is_release_of s name val e); [exact Hfind | by apply IH].
  - exfalso. destruct Hex as (e & He & Hf).
    pose proof (find_none _ _ Hfind e He) as Hnone. congruence.
Qed.

(** C4, amended.  A round that fails the success condition issues, after
    its fan-out, one release for the token against every peer of the peer
    set, whatever the peer answered to the set, and then sleeps; only then
    can the next round start.  When [lock] has used up its retries, its
    trace ends with the releases of the last round, and every peer that
    answered its last release no longer holds the key with the token of this
    call, whichever of the unanswered requests the peers executed.  A peer
    whose last release ended in an error is not covered. *)
Theorem failed_attempt_releases_on_every_peer (env : Env)
    (ran : list Event -> Server -> bool) (self : Redlock)
    (name : string) (ttl : Z) (w : World) :
  (forall (val : string) (drift : Z) (w1 : World),
     exists t0 sets t1 a,
       fanout env self name ttl val drift (trace w1) t0 sets t1 a /\
       (~ succeeds self a ->
        exists evals,
          Forall2 (is_release name val) (servers self) evals /\
          snd (lock_round env self name ttl val drift w1)
          = MkWorld (trace w1 ++ EvTime t0 :: sets ++ EvTime t1 :: evals
                              ++ [EvSleep (retry_delay self)])
                    (attempts w1 ++ [a]))) /\
  (0 < retry_count self ->
   fst (lock env self name ttl w) = Ret None ->
   exists val pre evals,
     fst (get_unique_id env w) = Ret val /\
     trace (snd (lock env self name ttl w))
     = pre ++ evals ++ [EvSleep (retry_delay self)] /\
     Forall2 (is_release name val) (servers self) evals /\
     forall s, In s (servers self) ->
       exists e,
         last_release (trace (snd (lock env self name ttl w))) s name val = Some e /\
         In e evals /\
         (replied e = true ->
          ~ retains ran (trace (snd (lock env self name ttl w))) s name val)).
Proof.
  split.
  - intros val drift w1.
    destruct (lock_round_run env self name ttl val drift w1)
      as (t0 & sets & t1 & a & Hfan & [[Hok _] | [_ (evals & Hrel & Hrun)]]);
      exists t0, sets, t1, a; (split; [exact Hfan|]); intros Hfail; [tauto|].
    exists evals. split; [exact Hrel|]. by rewrite Hrun.
  - intros Hcount.
    destruct (lock_run env self name ttl w)
      as (val & evs & atts & r & Hid & _ & Hrun & Hshape).
    rewrite Hrun. cbn [fst snd trace attempts]. intros ->.
    apply shape_cases in Hshape as [(drift & _ & Hshape) | (e & _ & _ & _ & He)];
      [|discriminate He].
    destruct (rounds_failed_trace _ _ _ _ _ _ _ _ _ _ Hshape)
      as (mid & evals & -> & Hrel); [lia|].
    exists val, (trace w ++ map EvChoice (list_ascii_of_string val) ++ mid), evals.
    split; [exact Hid|].
    assert (Htrace : trace w ++ map EvChoice (list_ascii_of_string val)
                       ++ mid ++ evals ++ [EvSleep (retry_delay self)]
                     = (trace w ++ map EvChoice (list_ascii_of_string val) ++ mid)
                         ++ evals ++ [EvSleep (retry_delay self)])
      by (by rewrite <- !app_assoc).
    rewrite Htrace. split; [reflexivity|]. split; [exact Hrel|].
    intros s Hin.
    destruct (last_release_found s name val
                (trace w ++ map EvChoice (list_ascii_of_string val) ++ mid)
                evals [EvSleep (retry_delay self)] (servers self) Hrel Hin)
      as (r & Hlast & Hev); [by repeat constructor|].
    exists (EvEval s unlock_script 1 [name; val] r).
    split; [exact Hlast|]. split; [exact Hev|].
    intros Hrep [px Hpx]. destruct r as [v|e]; [|discriminate].
    rewrite store_of_app, replay_app in Hpx. cbn [replay apply_event] in Hpx.
    revert Hpx. by eapply answered_release_clears.
Qed.

Lemma reachable_peer_is_cleaned_up :
  fst (lock only_a_env three_peers "res" 10000 w0) = Ret None /\
  ~ retains (reached only_a)
      (trace (snd (lock only_a_env three_peers "res" 10000 w0)))
      (peer "a") "res" "dkryFMT07elszGNU18fmtA".
Proof.
  assert (Hnone : fst (lock only_a_env three_peers "res" 10000 w0) = Ret None)
    by (vm_compute; reflexivity).
  split; [exact Hnone|].
  destruct (failed_attempt_releases_on_every_peer only_a_env (reached only_a)
              three_peers "res" 10000 w0) as [_ Hend].
  destruct (Hend ltac:(vm_compute; reflexivity) Hnone)
    as (val & pre & evals & Hid & _ & _ & Hpeers).
  vm_compute in Hid. injection Hid as <-.
  destruct (Hpeers (peer "a") ltac:(by left)) as (e & Hlast & _ & Hclear).
  vm_compute in Hlast. injection Hlast as <-.
  apply Hclear. reflexivity.
Defined.

(** ** The renewal loop *)



(** ** Stopping the extender *)

(** Without a live extender, [stop_expiry_extender] never blocks and
    leaves the flag cleared. *)
Lemma stop_without_extender (env : Env) (flag : bool) (tr : list Event) :
  run env [Main; Main; Main] (MkSys flag [] None tr) stop_expiry_extender
  = Some (MkSys false [] None tr, []).
Proof. reflexivity. Qed.

(** [join] holds the caller back while the recorded extender is alive. *)
Lemma stop_joins_the_recorded_extender (s : Sys) (i : nat) :
  expiry_extender s = Some i -> is_alive s i = true -> main_step StopJoin s = None.
Proof. intros Hi Halive. unfold main_step. by rewrite Hi, Halive. Qed.

(** C10: two extenders are started, for peer a and then for peer b, and
    [stop_expiry_extender] is called.  The loop of peer b, woken by the
    flag, still issues a renewal after the flag was set.  The stop joins the
    loop of peer b only, clears the flag and returns while the loop of peer a
    is alive; that loop then finds the flag cleared and goes on renewing. *)
Theorem stop_returns_while_a_loop_renews :
  exists s1 s2 s3,
    run plain_env [Main; Main; Worker 0; Worker 1; Worker 0; Main]
        (MkSys false [] None both_locked) two_extenders
    = Some (s1, [StopJoin; StopClear]) /\
    event s1 = true /\
    run plain_env [Worker 1; Worker 1; Worker 1; Main; Main] s1 [StopJoin; StopClear]
    = Some (s2, []) /\
    sys_trace s2
    = sys_trace s1 ++ [EvWait (wait_timeout 20000) true;
                       EvSet (peer "b") "res" tok XX 20000 (Ret (PyBool true))] /\
    event s2 = false /\
    is_alive s2 0 = true /\
    run plain_env [Worker 0; Worker 0; Worker 0; Worker 0] s2 [] = Some (s3, []) /\
    sys_trace s3
    = sys_trace s2 ++ [EvSet (peer "a") "res" tok XX 20000 (Ret (PyBool true));
                       EvWait (wait_timeout 20000) false;
                       EvSet (peer "a") "res" tok XX 20000 (Ret (PyBool true))] /\
    is_alive s3 0 = true.
Proof.
  eexists _, _, _.
  split; [vm_compute; reflexivity|]. split; [reflexivity|].
  split; [vm_compute; reflexivity|]. split; [vm_compute; reflexivity|].
  split; [reflexivity|]. split; [reflexivity|].
  split; [vm_compute; reflexivity|]. split; [vm_compute; reflexivity|].
  reflexivity.
Qed.

(** * More of the module *)

(** ** Tokens *)

Lemma get_in (s : string) : forall (i : nat) (c : ascii),
  String.get i s = Some c -> In c (list_ascii_of_string s).
Proof.
  induction s as [|a s IH]; intros i c H; simpl in *; [discriminate|].
  destruct i as [|i]; [inversion H; by left | right; by eapply IH].
Qed.

Lemma get_below (s : string) : forall i : nat,
  (i < String.length s)%nat -> exists c, String.get i s = Some c.
Proof.
  induction s as [|a s IH]; intros i H; simpl in *; [lia|].
  destruct i as [|i]; [by exists a | apply IH; lia].
Qed.

Lemma random_choice_in (env : Env) (seq : string) (w : World) :
  (0 < String.length seq)%nat ->
  exists c, random_choice env seq w
            = (Ret c, MkWorld (trace w ++ [EvChoice c]) (attempts w)) /\
            In c (list_ascii_of_string seq).
Proof.
  intros Hlen. unfold random_choice.
  destruct (get_below seq (random_index env (trace w) mod String.length seq))
    as [c Hc]; [apply Nat.mod_upper_bound; lia|].
  rewrite Hc. exists c. split; [reflexivity | by eapply get_in].
Qed.

Lemma random_string_alphabet (env : Env) (k : nat) : forall w : World,
  exists s,
    random_string env k w
    = (Ret s, MkWorld (trace w ++ map EvChoice (list_ascii_of_string s)) (attempts w))
    /\ String.length s = k
    /\ Forall (fun c => In c (list_ascii_of_string CHARACTERS)) (list_ascii_of_string s).
Proof.
  induction k as [|k IH]; intros w; cbn [random_string].
  - exists EmptyString. unfold ret. simpl. rewrite app_nil_r.
    split; [by destruct w|]. split; [reflexivity | constructor].
  - destruct (random_choice_in env CHARACTERS w) as (c & Hc & Hin);
      [vm_compute; lia|].
    unfold bind at 1. rewrite Hc.
    destruct (IH (MkWorld (trace w ++ [EvChoice c]) (attempts w)))
      as (s & Hrun & Hlen & Hall).
    exists (String c s). unfold bind. rewrite Hrun. unfold ret. simpl.
    split; [by norm_app|]. split; [by rewrite Hlen | by constructor].
Qed.

(** X1: [get_unique_id] never raises; it draws 22 characters with
    [random.choice], one call each and nothing else, and returns them as a
    string of length 22 whose characters are all letters or digits of
    [CHARACTERS]. *)
Theorem get_unique_id_is_22_alphanumerics (env : Env) (w : World) :
  exists val,
    get_unique_id env w
    = (Ret val, MkWorld (trace w ++ map EvChoice (list_ascii_of_string val)) (attempts w))
    /\ String.length val = 22%nat
    /\ Forall (fun c => In c (list_ascii_of_string CHARACTERS)) (list_ascii_of_string val).
Proof.
  change (get_unique_id env w) with (random_string env 22 w).
  exact (random_string_alphabet env 22 w).
Qed.

(** ** Construction *)

Lemma connect_all_built (env : Env) (l : list connection_info) :
  forall acc servers,
    connect_all env l acc = Ret servers <->
    exists built,
      Forall2 (fun info s => new_server env info = Ret s) l built /\
      servers = acc ++ built.
Proof.
  induction l as [|info l IH]; intros acc servers; simpl.
  - split.
    + intros H. inversion H; subst. exists []. split; [constructor | by rewrite app_nil_r].
    + intros (built & Hb & ->). inversion Hb; subst. by rewrite app_nil_r.
  - destruct (new_server env info) as [s|e] eqn:Hs.
    + rewrite IH. split.
      * intros (built & Hb & ->). exists (s :: built).
        split; [by constructor | by rewrite <- app_assoc].
      * intros (built & Hb & ->). inversion Hb as [|? s' ? built' Hs' Hb']; subst.
        rewrite Hs in Hs'. inversion Hs'; subst.
        exists built'. split; [done | by rewrite <- app_assoc].
    + split; [discriminate|].
      intros (built & Hb & _). inversion Hb as [|? s' ? built' Hs' Hb']; subst.
      rewrite Hs in Hs'. discriminate.
Qed.

Lemma init_built (env : Env) (l : list connection_info)
    (rc : option Z) (rd : option Q) (self : Redlock) :
  init env l rc rd = Ret self ->
  Forall2 (fun info s => new_server env info = Ret s) l (servers self) /\
  l <> [] /\
  quorum self <= Z.of_nat (length (servers self)) /\
  Z.of_nat (length (servers self)) < 2 * quorum self.
Proof.
  unfold init. intros H.
  destruct (connect_all env l []) as [built|e] eqn:Hc; [|discriminate].
  apply connect_all_built in Hc as (built' & Hb & ->). simpl in *.
  pose proof (Forall2_length _ _ _ Hb) as Hlen.
  destruct (Z.of_nat (length built') <? Z.of_nat (length l) / 2 + 1) eqn:Hlt;
    [discriminate|].
  apply Z.ltb_ge in Hlt. inversion H; subst. simpl.
  split; [exact Hb|]. rewrite <- Hlen in *.
  pose proof (Z.mul_succ_div_gt (Z.of_nat (length l)) 2 ltac:(lia)) as Hgt.
  split; [|split; lia].
  intros Hnil. rewrite Hnil in Hlt. vm_compute in Hlt. by apply Hlt.
Qed.

(** X2: when [__init__] returns a manager, its peers are the clients built
    from the descriptors, one for each and in the order of the list; the
    list was not empty; and the quorum is a strict majority of the peers:
    it is at most their number and more than half of it. *)
Theorem init_builds_every_peer (env : Env) (l : list connection_info)
    (rc : option Z) (rd : option Q) (self : Redlock) :
  init env l rc rd = Ret self ->
  Forall2 (fun info s => new_server env info = Ret s) l (servers self) /\
  l <> [] /\
  quorum self <= Z.of_nat (length (servers self)) /\
  Z.of_nat (length (servers self)) < 2 * quorum self.
Proof. apply init_built. Qed.

Lemma init_of_five_urls :
  exists self,
    init plain_env five_urls None None = Ret self /\
    length (servers self) = 5%nat /\ quorum self = 3.
Proof.
  eexists. split; [vm_compute; reflexivity|].
  destruct (init_builds_every_peer plain_env five_urls None None _
              ltac:(vm_compute; reflexivity)) as (Hb & _ & _ & _).
  split; reflexivity.
Defined.

(** X3: [__init__] returns a manager exactly when the list of descriptors
    is not empty and a client can be built from every one of them. *)
Theorem init_succeeds_iff (env : Env) (l : list connection_info)
    (rc : option Z) (rd : option Q) :
  (exists self, init env l rc rd = Ret self) <->
  l <> [] /\ Forall (fun info => exists s, new_server env info = Ret s) l.
Proof.
  split.
  - intros [self H]. apply init_built in H as (Hb & Hne & _).
    split; [exact Hne|]. clear -Hb.
    induction Hb; constructor; eauto.
  - intros [Hne Hall].
    assert (Hb : exists built, Forall2 (fun info s => new_server env info = Ret s) l built).
    { clear Hne. induction Hall as [|info l [s Hs] _ [built IH]].
      - exists []. constructor.
      - exists (s :: built). by constructor. }
    destruct Hb as [built Hb]. pose proof (Forall2_length _ _ _ Hb) as Hlen.
    unfold init.
    assert (Hc : connect_all env l [] = Ret built).
    { apply connect_all_built. by exists built. }
    rewrite Hc.
    destruct (Z.of_nat (length built) <? Z.of_nat (length l) / 2 + 1) eqn:Hlt;
      [|by eexists].
    exfalso. apply Z.ltb_lt in Hlt. rewrite <- Hlen in Hlt.
    destruct l; [done|]. simpl length in Hlt.
    assert (Z.of_nat (S (length l)) / 2 < Z.of_nat (S (length l)))
      by (apply Z.div_lt; lia).
    lia.
Qed.

(** X4: a manager asked for no retry count, or for the count 0, retries
    with the default: a [lock] of it that returns [False] has made exactly
    three attempts. *)
Theorem lock_of_a_default_manager_tries_three_times (env : Env)
    (l : list connection_info) (rc : option Z) (rd : option Q) (self : Redlock)
    (name : string) (ttl : Z) (w : World) :
  init env l rc rd = Ret self ->
  rc = None \/ rc = Some 0 ->
  fst (lock env self name ttl w) = Ret None ->
  exists atts,
    attempts (snd (lock env self name ttl w)) = attempts w ++ atts /\
    length atts = 3%nat.
Proof.
  intros Hinit Hrc.
  assert (Hcount : retry_count self = 3).
  { unfold init in Hinit.
    destruct (connect_all env l []); [|discriminate].
    destruct (_ <? _); [discriminate|]. inversion Hinit; subst. simpl.
    by destruct Hrc as [-> | ->]. }
  destruct (lock_run env self name ttl w)
    as (val & evs & atts & r & _ & _ & Hrun & Hshape).
  rewrite Hrun. cbn [fst snd attempts]. intros ->.
  exists atts. split; [reflexivity|].
  apply shape_cases in Hshape as [(drift & _ & Hshape) | (e & _ & _ & _ & He)];
    [|discriminate He].
  apply rounds_result in Hshape as [_ ->]. by rewrite Hcount.
Qed.

Lemma lock_of_a_manager_built_with_zero_retries :
  exists self,
    init down_env five_urls (Some 0) None = Ret self /\
    length (attempts (snd (lock down_env self "res" 10000 w0))) = 3%nat.
Proof.
  eexists. split; [vm_compute; reflexivity|].
  destruct (lock_of_a_default_manager_tries_three_times down_env five_urls (Some 0) None
              _ "res" 10000 w0 ltac:(vm_compute; reflexivity) ltac:(by right)
              ltac:(vm_compute; reflexivity)) as (atts & Hatts & Hlen).
  rewrite Hatts. exact Hlen.
Defined.

(** ** Acquisition: edges and cost *)

(** X5: with a clock that does not run backwards, a time-to-live of 2 ms
    or less never yields a handle: the drift alone uses it up. *)
Theorem lock_needs_more_than_two_ms (env : Env) (self : Redlock) (name : string)
    (ttl : Z) (w : World) :
  monotone_clock env ->
  ttl <= 2 ->
  is_handle (fst (lock env self name ttl w)) = false.
Proof.
  intros Hmono Httl.
  destruct (lock_run env self name ttl w)
    as (val & evs & atts & r & _ & _ & Hrun & Hshape).
  rewrite Hrun. cbn [fst].
  destruct r as [[h|]|e]; try reflexivity. exfalso.
  apply shape_cases in Hshape as [(drift & Hdrift & Hshape) | (e & _ & _ & _ & He)];
    [|discriminate He].
  pose proof (rounds_attempts _ _ _ _ _ _ _ _ _ _ _ Hshape) as Hatts.
  apply rounds_result in Hshape as (fails & a & -> & _ & [Hpos _] & _).
  apply Forall_app in Hatts as [_ Hlast]. inversion Hlast as [|? ? (_ & Hval & Hel) _]; subst.
  specialize (Hel Hmono). pose proof (lock_drift_above ttl drift Httl Hdrift). lia.
Qed.

Lemma lock_with_two_ms :
  is_handle (fst (lock plain_env three_peers "res" 2 w0)) = false.
Proof.
  apply lock_needs_more_than_two_ms; [apply tick_clock_monotone | lia].
Defined.

(** ** What a computation adds to the trace *)

Lemma answered_app (env : Env) (a : list Event) : forall (pre b : list Event),
  answered env pre (a ++ b) <-> answered env pre a /\ answered env (pre ++ a) b.
Proof.
  induction a as [|e a IH]; intros pre b; simpl.
  - rewrite app_nil_r. tauto.
  - rewrite IH, <- app_assoc. simpl. tauto.
Qed.

Section Extends.
Variable env : Env.

Lemma extends_ret {A} (a : A) : extends env (ret a).
Proof. intros w. exists []. simpl. by rewrite app_nil_r. Qed.

Lemma extends_bind {A B} (m : M A) (k : A -> M B) :
  extends env m -> (forall a, extends env (k a)) -> extends env (bind m k).
Proof.
  intros Hm Hk w. unfold bind. destruct (Hm w) as (e1 & Ht1 & Ha1).
  destruct (m w) as [[a|e] w1]; simpl in *.
  - destruct (Hk a w1) as (e2 & Ht2 & Ha2). exists (e1 ++ e2).
    rewrite Ht2, Ht1, <- app_assoc. split; [reflexivity|].
    apply answered_app. split; [exact Ha1 | by rewrite <- Ht1].
  - by exists e1.
Qed.

Lemma extends_try_except {A} (m h : M A) :
  extends env m -> extends env h -> extends env (try_except m h).
Proof.
  intros Hm Hh w. unfold try_except. destruct (Hm w) as (e1 & Ht1 & Ha1).
  destruct (m w) as [[a|e] w1]; simpl in *.
  - by exists e1.
  - destruct (Hh w1) as (e2 & Ht2 & Ha2). exists (e1 ++ e2).
    rewrite Ht2, Ht1, <- app_assoc. split; [reflexivity|].
    apply answered_app. split; [exact Ha1 | by rewrite <- Ht1].
Qed.

Lemma extends_one {A} (m : M A) :
  (forall w, exists e, trace (snd (m w)) = trace w ++ [e] /\ answers env (trace w) e) ->
  extends env m.
Proof. intros H w. destruct (H w) as (e & Ht & Ha). exists [e]. by split. Qed.

Lemma extends_of_outcome {A} (r : outcome A) : extends env (of_outcome r).
Proof. intros w. exists []. simpl. by rewrite app_nil_r. Qed.

Lemma extends_note (a : Attempt) : extends env (note_attempt a).
Proof. intros w. exists []. simpl. by rewrite app_nil_r. Qed.

Lemma extends_now : extends env (now_ms env).
Proof. apply extends_one. intros w. by eexists. Qed.

Lemma extends_sleep (d : Q) : extends env (sleep env d).
Proof.
  apply extends_one. intros w. by exists (EvSleep d).
Qed.

Lemma extends_set s k v mode px : extends env (redis_set env s k v mode px).
Proof. apply extends_one. intros w. by eexists. Qed.

Lemma extends_eval s script numkeys args :
  extends env (redis_eval env s script numkeys args).
Proof. apply extends_one. intros w. by eexists. Qed.

Lemma extends_choice seq : extends env (random_choice env seq).
Proof. apply extends_one. intros w. by eexists. Qed.

Lemma extends_random_string k : extends env (random_string env k).
Proof.
  induction k as [|k IH]; cbn [random_string]; [apply extends_ret|].
  apply extends_bind; [apply extends_choice|]. intros c.
  apply extends_bind; [exact IH|]. intros s. apply extends_ret.
Qed.

Lemma extends_lock_instance s k v ttl : extends env (lock_instance env s k v ttl).
Proof. apply extends_try_except; [apply extends_set | apply extends_ret]. Qed.

Lemma extends_unlock_instance s k v : extends env (unlock_instance env s k v).
Proof.
  apply extends_try_except; [|apply extends_ret].
  apply extends_bind; [apply extends_eval | intros; apply extends_ret].
Qed.

Lemma extends_lock_servers l k v ttl : forall acc,
  extends env (lock_servers env l k v ttl acc).
Proof.
  induction l as [|s l IH]; intros acc; simpl; [apply extends_ret|].
  apply extends_bind; [apply extends_lock_instance | intros; apply IH].
Qed.

Lemma extends_unlock_servers l k v : extends env (unlock_servers env l k v).
Proof.
  induction l as [|s l IH]; simpl; [apply extends_ret|].
  apply extends_bind; [apply extends_unlock_instance | intros; apply IH].
Qed.

Lemma extends_lock_round self k ttl v drift :
  extends env (lock_round env self k ttl v drift).
Proof.
  unfold lock_round, lock_attempt, lock_cleanup.
  repeat first
    [ apply extends_ret | apply extends_now | apply extends_note
    | apply extends_sleep | apply extends_lock_servers
    | apply extends_unlock_servers
    | apply extends_bind; [|intros ?]
    | match goal with |- extends _ (let '(_, _) := ?a in _) => destruct a end
    | match goal with |- extends _ (if ?c then _ else _) => destruct c end ].
Qed.

Lemma extends_lock_while self k ttl v drift : forall fuel retry,
  extends env (lock_while env fuel self k ttl v drift retry).
Proof.
  induction fuel as [|fuel IH]; intros retry; simpl;
    destruct (retry <? retry_count self); try apply extends_ret.
  apply extends_bind; [apply extends_lock_round|].
  intros [h|]; [apply extends_ret | apply IH].
Qed.

Lemma extends_lock self k ttl : extends env (lock env self k ttl).
Proof.
  unfold lock. apply extends_bind; [apply extends_random_string|].
  intros v. apply extends_bind; [apply extends_of_outcome|].
  intros drift. apply extends_lock_while.
Qed.

End Extends.

(** ** Keys on the peers *)

Lemma harmless_keeps (ran : list Event -> Server -> bool) (k v : string)
    (px : Z) (s : Server) (h : list Event) (e : Event)
    (st : gmap string (string * Z)) :
  harmless k v e ->
  st !! k = Some (v, px) ->
  apply_event ran s h st e !! k = Some (v, px).
Proof.
  intros Hh Hst. destruct e as [| | |s' k' v' mode px' r|s' script nk args r|];
    simpl in *; try exact Hst.
  - destruct mode; [|destruct Hh].
    destruct (decide (s' = s)); [|exact Hst].
    destruct (took_effect ran h s' r); [|exact Hst].
    unfold peer_set. destruct (px' <=? 0); [exact Hst|].
    unfold store_set. destruct (st !! k') eqn:Hk'; simpl; [exact Hst|].
    rewrite lookup_insert_ne; [exact Hst | congruence].
  - destruct Hh as (-> & -> & k' & v' & -> & Hne).
    destruct (decide (s' = s)); [|exact Hst].
    destruct (took_effect ran h s' r); [|exact Hst].
    rewrite peer_eval_unlock_script.
    destruct (st !! k') as [[v'' px'']|] eqn:Hk'; [|exact Hst].
    destruct (decide (v'' = v')) as [->|]; [|exact Hst]. simpl.
    rewrite lookup_delete_ne; [exact Hst|].
    intros ->. rewrite Hst in Hk'. inversion Hk'; subst. by destruct Hne.
Qed.

Lemma harmless_keep (ran : list Event -> Server -> bool) (k v : string) (px : Z)
    (s : Server) (evs : list Event) :
  forall tr,
    Forall (harmless k v) evs ->
    store_of ran tr s !! k = Some (v, px) ->
    store_of ran (tr ++ evs) s !! k = Some (v, px).
Proof.
  induction evs as [|e evs IH]; intros tr Hall Hst; [by rewrite app_nil_r|].
  inversion Hall; subst.
  replace (tr ++ e :: evs) with ((tr ++ [e]) ++ evs) by (by rewrite <- app_assoc).
  apply IH; [done|]. rewrite store_of_app. cbn [replay]. by apply harmless_keeps.
Qed.

Lemma lock_calls_harmless (name : string) (ttl : Z) (val k v : string)
    (evs : list Event) :
  k <> name \/ v <> val ->
  Forall (lock_call name ttl val) evs -> Forall (harmless k v) evs.
Proof.
  intros Hne Hall. eapply Forall_impl; [exact Hall|].
  intros [| | |s k' v' mode px r|s script nk args r|]; simpl; try done.
  - by intros (_ & _ & -> & _).
  - intros (-> & -> & ->). repeat split. exists name, val. split; [done|].
    destruct Hne; [left | right]; congruence.
Qed.

Lemma choices_harmless (k v : string) (l : list ascii) :
  Forall (harmless k v) (map EvChoice l).
Proof. induction l; simpl; by constructor. Qed.

(** X6: [lock] never removes or overwrites a key that is not its own.  A
    key that a peer holds before the call, under another name or with a
    value other than the token of the call, is held unchanged after it,
    whatever the outcome and whatever the peers answered. *)
Theorem lock_leaves_foreign_keys (env : Env) (ran : list Event -> Server -> bool)
    (self : Redlock) (name : string) (ttl : Z) (w : World) (s : Server)
    (k v : string) (px : Z) :
  store_of ran (trace w) s !! k = Some (v, px) ->
  k <> name \/ fst (get_unique_id env w) <> Ret v ->
  store_of ran (trace (snd (lock env self name ttl w))) s !! k = Some (v, px).
Proof.
  intros Hst Hne.
  destruct (lock_run env self name ttl w)
    as (val & evs & atts & r & Hid & _ & Hrun & Hshape).
  rewrite Hrun. cbn [snd trace]. rewrite Hid in Hne.
  apply harmless_keep; [|exact Hst].
  apply Forall_app. split; [apply choices_harmless|].
  eapply lock_calls_harmless; [|exact (shape_calls _ _ _ _ _ _ _ _ _ Hshape)].
  destruct Hne as [?|Hv]; [by left | right; congruence].
Qed.

Lemma lock_against_another_holder :
  store_of (reached no_faults)
    (trace (snd (lock plain_env three_peers "res" 10000 (MkWorld other_holder []))))
    (peer "a") !! "res"
  = Some ("held-by-another-client", 30000).
Proof.
  apply lock_leaves_foreign_keys.
  - vm_compute. reflexivity.
  - right. vm_compute. discriminate.
Defined.

Lemma releases_harmless (name val k v : string) (l : list Server)
    (evals : list Event) :
  k <> name \/ v <> val ->
  Forall2 (is_release name val) l evals -> Forall (harmless k v) evals.
Proof.
  intros Hne. induction 1 as [|s e l evals [r ->] _ IH]; constructor; [|done].
  simpl. repeat split. exists name, val. split; [done|].
  destruct Hne; [left | right]; congruence.
Qed.

(** X7: [unlock] never removes a key that is not the one of the handle.
    A key that a peer holds under another name, or under the name of the
    handle with another value, is held unchanged after the call. *)
Theorem unlock_leaves_foreign_keys (env : Env) (ran : list Event -> Server -> bool)
    (self : Redlock) (h : Lock) (w : World) (s : Server) (k v : string) (px : Z) :
  store_of ran (trace w) s !! k = Some (v, px) ->
  k <> resource h \/ v <> key h ->
  store_of ran (trace (snd (unlock env self h w))) s !! k = Some (v, px).
Proof.
  intros Hst Hne. unfold unlock.
  destruct (unlock_servers_run env (resource h) (key h) (servers self) w)
    as (evals & Hrun & Hrel).
  rewrite Hrun. cbn [snd trace].
  apply harmless_keep; [|exact Hst]. by eapply releases_harmless.
Qed.

Lemma unlock_with_a_stale_handle :
  store_of (reached no_faults)
    (trace (snd (unlock plain_env three_peers held_lock (MkWorld other_holder []))))
    (peer "a") !! "res"
  = Some ("held-by-another-client", 30000).
Proof.
  apply unlock_leaves_foreign_keys.
  - vm_compute. reflexivity.
  - right. vm_compute. discriminate.
Defined.

(** X8: after [unlock], every peer of the manager has been sent a release
    for the handle, and every peer that answered its last such release no
    longer holds the key with the token of the handle, whichever of the
    unanswered requests the peers executed. *)
Theorem unlock_clears_every_reached_peer (env : Env)
    (ran : list Event -> Server -> bool) (self : Redlock) (h : Lock)
    (w : World) (s : Server) :
  In s (servers self) ->
  exists e,
    last_release (trace (snd (unlock env self h w))) s (resource h) (key h) = Some e /\
    (replied e = true ->
     ~ retains ran (trace (snd (unlock env self h w))) s (resource h) (key h)).
Proof.
  intros Hin. unfold unlock.
  destruct (unlock_servers_run env (resource h) (key h) (servers self) w)
    as (evals & Hrun & Hrel).
  rewrite Hrun. cbn [snd trace].
  destruct (last_release_found s (resource h) (key h) (trace w) evals []
              (servers self) Hrel Hin) as (r & Hlast & Hev); [constructor|].
  rewrite app_nil_r in Hlast.
  exists (EvEval s unlock_script 1 [resource h; key h] r). split; [exact Hlast|].
  intros Hrep [px Hpx]. destruct r as [v|e]; [|discriminate Hrep].
  rewrite store_of_app in Hpx. revert Hpx. by eapply answered_release_clears.
Qed.

Lemma unlock_after_lock :
  fst (lock plain_env three_peers "res" 10000 w0) = Ret (Some held_lock) /\
  retains (reached no_faults) (trace locked_world) (peer "a") "res" (key held_lock) /\
  ~ retains (reached no_faults)
      (trace (snd (unlock plain_env three_peers held_lock locked_world)))
      (peer "a") "res" (key held_lock).
Proof.
  split; [vm_compute; reflexivity|].
  split; [exists 10000; vm_compute; reflexivity|].
  destruct (unlock_clears_every_reached_peer plain_env (reached no_faults) three_peers
              held_lock locked_world (peer "a") ltac:(by left)) as (e & Hlast & Hclear).
  vm_compute in Hlast. injection Hlast as <-.
  apply Hclear. reflexivity.
Defined.

(** ** Mutual exclusion on Redis peers *)

Lemma filter_length_mono {A} (f g : A -> bool) (l : list A) :
  (forall x, f x = true -> g x = true) ->
  (length (List.filter f l) <= length (List.filter g l))%nat.
Proof.
  intros H. induction l as [|x l IH]; simpl; [lia|].
  destruct (f x) eqn:Hf.
  - rewrite (H x Hf). simpl. lia.
  - destruct (g x); simpl; lia.
Qed.

Lemma filter_length_disjoint {A} (f g : A -> bool) (l : list A) :
  (forall x, f x = true -> g x = false) ->
  (length (List.filter f l) + length (List.filter g l) <= length l)%nat.
Proof.
  intros H. induction l as [|x l IH]; simpl; [lia|].
  destruct (f x) eqn:Hf.
  - rewrite (H x Hf). simpl. lia.
  - destruct (g x); simpl; lia.
Qed.

Section Held.
Variable ran : list Event -> Server -> bool.

Lemma holds_retains (tr : list Event) (name val : string) (s : Server) :
  holds ran tr name val s = true <-> retains ran tr s name val.
Proof.
  unfold holds, retains. destruct (store_of ran tr s !! name) as [[v px]|].
  - rewrite bool_decide_eq_true. split.
    + intros ->. by exists px.
    + intros [px' H]. congruence.
  - split; [discriminate | intros [px H]; discriminate].
Qed.

Lemma holds_kept (name val : string) (s : Server) (tr evs : list Event) :
  Forall (harmless name val) evs ->
  holds ran tr name val s = true -> holds ran (tr ++ evs) name val s = true.
Proof.
  intros Hall. rewrite !holds_retains. intros [px Hpx]. exists px.
  by apply harmless_keep.
Qed.

Lemma holders_kept (name val : string) (l : list Server) (tr evs : list Event) :
  Forall (harmless name val) evs ->
  holders ran tr name val l <= holders ran (tr ++ evs) name val l.
Proof.
  intros Hall. unfold holders. apply inj_le, filter_length_mono.
  intros s. by apply holds_kept.
Qed.

Lemma free_lost (name : string) (s : Server) (tr evs : list Event) :
  (forall v, Forall (harmless name v) evs) ->
  free ran (tr ++ evs) name s = true -> free ran tr name s = true.
Proof.
  intros Hall. unfold free.
  destruct (store_of ran tr s !! name) as [[v px]|] eqn:Hst; [|done].
  by rewrite (harmless_keep ran name v px s evs tr (Hall v) Hst).
Qed.

End Held.

Lemma sets_harmless (name val : string) (ttl : Z) (k v : string)
    (l : list Server) (sets : list Event) :
  Forall2 (is_set_nx name val ttl) l sets -> Forall (harmless k v) sets.
Proof. induction 1 as [|s e l sets [r ->] _ IH]; by constructor. Qed.

Section Exclusion.
Variables (faults : list Event -> Server -> fault) (clock : list Event -> Z)
          (rnd : list Event -> nat).
Local Abbreviation env := (redis_env faults clock rnd).
Local Abbreviation ran := (reached faults).

(** A peer accepts a conditional set only for a key it does not hold, and
    holds the key with the value from then on. *)
Lemma accepted_set (tr : list Event) (s : Server) (name val : string) (ttl : Z)
    (r : outcome pyval) :
  answers env tr (EvSet s name val NX ttl r) ->
  accepted (EvSet s name val NX ttl r) = true ->
  free ran tr name s = true /\
  holds ran (tr ++ [EvSet s name val NX ttl r]) name val s = true.
Proof.
  simpl. intros -> Hacc. unfold free, holds. rewrite store_of_app.
  cbn [replay apply_event].
  destruct (decide (s = s)) as [_|]; [|done].
  destruct (faults tr s); simpl in *; try discriminate.
  unfold peer_set in *. destruct (ttl <=? 0); simpl in *; [discriminate|].
  unfold store_set in *.
  destruct (store_of (reached faults) tr s !! name) eqn:Hst; simpl in *; [discriminate|].
  split; [reflexivity|]. rewrite lookup_insert_eq. by rewrite bool_decide_eq_true_2.
Qed.

Lemma fanout_accepts_free (name val : string) (ttl : Z) (l : list Server)
    (sets : list Event) :
  Forall2 (is_set_nx name val ttl) l sets ->
  forall pre,
    answered env pre sets ->
    count_accepted sets <= Z.of_nat (length (List.filter (free ran pre name) l)).
Proof.
  induction 1 as [|s e l sets [r ->] Hrest IH]; intros pre Hans.
  - unfold count_accepted. simpl. lia.
  - destruct Hans as [Hans Hans']. rewrite count_accepted_cons.
    specialize (IH _ Hans').
    assert (Hmono : (length (List.filter (free ran (pre ++ [EvSet s name val NX ttl r]) name) l)
                     <= length (List.filter (free ran pre name) l))%nat).
    { apply filter_length_mono. intros x. apply free_lost.
      intros v. by repeat constructor. }
    destruct (accepted (EvSet s name val NX ttl r)) eqn:Hacc.
    + destruct (accepted_set _ _ _ _ _ _ Hans Hacc) as [Hfree _].
      cbn [List.filter]. rewrite Hfree. simpl length. lia.
    + cbn [List.filter]. destruct (free ran pre name s); simpl length; lia.
Qed.

Lemma rounds_excluded (self : Redlock) (name : string) (ttl : Z)
    (val other : string) (drift : Z) (pre : list Event) (k : nat)
    (evs : list Event) (atts : list Attempt) (r : outcome (option Lock)) :
  lock_rounds env self name ttl val drift pre k evs atts r ->
  val <> other ->
  Z.of_nat (length (servers self)) < 2 * quorum self ->
  answered env pre evs ->
  quorum self <= holders ran pre name other (servers self) ->
  is_handle r = false.
Proof.
  intros Hshape Hne Hmaj.
  induction Hshape as [ | pre k t0 sets t1 a Hfan Hok
                        | pre k t0 sets t1 a evals rest atts r Hfan Hfail Hrel Hd Hrest IH
                        | pre k t0 sets t1 a evals e Hfan Hfail Hrel Hd ];
    intros Hans Hheld; try reflexivity.
  - exfalso. destruct Hok as [_ Hq].
    destruct (fanout_attempt _ _ _ _ _ _ _ _ _ _ _ Hfan) as (_ & Hcount & _).
    destruct Hfan as [_ Hsets _ _].
    destruct Hans as [_ Hans]. apply answered_app in Hans as [Hans _].
    pose proof (fanout_accepts_free _ _ _ _ _ Hsets _ Hans) as Hfree.
    pose proof (holders_kept ran name other (servers self) pre [EvTime t0]
                  ltac:(by repeat constructor)) as Hkept.
    pose proof (filter_length_disjoint (free ran (pre ++ [EvTime t0]) name)
                  (holds ran (pre ++ [EvTime t0]) name other) (servers self)) as Hdis.
    unfold holders in *.
    assert ((length (List.filter (free ran (pre ++ [EvTime t0]) name) (servers self))
             + length (List.filter (holds ran (pre ++ [EvTime t0]) name other) (servers self))
             <= length (servers self))%nat).
    { apply Hdis. intros s. unfold free, holds.
      by destruct (store_of ran (pre ++ [EvTime t0]) s !! name). }
    lia.
  - apply IH.
    + replace (EvTime t0 :: sets ++ EvTime t1 :: evals ++ EvSleep (retry_delay self) :: rest)
        with ((EvTime t0 :: sets ++ EvTime t1 :: evals ++ [EvSleep (retry_delay self)]) ++ rest)
        in Hans by (by norm_app).
      by apply answered_app in Hans as [_ Hans].
    + etransitivity; [exact Hheld|]. apply holders_kept.
      destruct Hfan as [_ Hsets _ _].
      constructor; [exact I|]. apply Forall_app. split; [by eapply sets_harmless|].
      constructor; [exact I|]. apply Forall_app. split; [|by repeat constructor].
      eapply releases_harmless; [|exact Hrel]. right. congruence.
Qed.

(** X10: on Redis peers, a resource that is held cannot be locked again.
    When at least [quorum] entries of the peer list hold the resource with
    some token, the quorum being more than half of the list, a [lock] that
    draws another token returns no handle; and the peers that held the
    resource hold it afterwards. *)
Theorem lock_is_refused_while_held (self : Redlock) (name : string) (ttl : Z)
    (w : World) (other : string) :
  Z.of_nat (length (servers self)) < 2 * quorum self ->
  quorum self <= holders ran (trace w) name other (servers self) ->
  fst (get_unique_id env w) <> Ret other ->
  is_handle (fst (lock env self name ttl w)) = false /\
  forall s, holds ran (trace w) name other s = true ->
            holds ran (trace (snd (lock env self name ttl w))) name other s = true.
Proof.
  intros Hmaj Hheld Hid.
  destruct (extends_lock env self name ttl w) as (all & Htrace & Hans).
  destruct (lock_run env self name ttl w)
    as (val & evs & atts & r & Hval & _ & Hrun & Hshape).
  rewrite Hrun in *. cbn [fst snd trace] in *.
  apply app_inv_head in Htrace. subst all.
  assert (Hne : val <> other) by congruence.
  set (choices := map EvChoice (list_ascii_of_string val)) in *.
  split.
  - apply answered_app in Hans as [_ Hans].
    apply shape_cases in Hshape as [(drift & _ & Hshape) | (e & _ & _ & _ & ->)];
      [|reflexivity].
    eapply rounds_excluded; eauto.
    etransitivity; [exact Hheld|]. apply holders_kept, choices_harmless.
  - intros s. apply holds_kept. apply Forall_app. split; [apply choices_harmless|].
    eapply lock_calls_harmless; [|exact (shape_calls _ _ _ _ _ _ _ _ _ Hshape)].
    by right.
Qed.

End Exclusion.

Lemma second_lock_is_refused :
  is_handle (fst (lock plain_env three_peers "res" 10000 w0)) = true /\
  is_handle (fst (lock plain_env three_peers "res" 10000 locked_world)) = false.
Proof.
  split; [vm_compute; reflexivity|].
  exact (proj1 (lock_is_refused_while_held no_faults tick_clock count_rnd three_peers
                  "res" 10000 locked_world (key held_lock)
                  ltac:(vm_compute; reflexivity)
                  ltac:(vm_compute; discriminate)
                  ltac:(vm_compute; discriminate))).
Defined.

(** ** The life of the keys of a handle *)

Section Expiry.
Variables (faults : list Event -> Server -> fault)
          (peer_time : list Event -> Server -> Z)
          (clock : list Event -> Z) (rnd : list Event -> nat).
Local Abbreviation env := (timed_env faults peer_time clock rnd).
Local Abbreviation ran := (reached faults).
Local Abbreviation store := (timed_store_of (reached faults) peer_time).

Lemma timed_replay_app (s : Server) (a : list Event) :
  forall (h : list Event) (st : gmap string (string * Z)) (b : list Event),
    timed_replay ran peer_time s h st (a ++ b)
    = timed_replay ran peer_time s (h ++ a) (timed_replay ran peer_time s h st a) b.
Proof.
  induction a as [|e a IH]; intros h st b; simpl.
  - by rewrite app_nil_r.
  - rewrite IH, <- app_assoc. reflexivity.
Qed.

Lemma timed_store_of_snoc (tr : list Event) (e : Event) (s : Server) :
  store (tr ++ [e]) s = timed_apply ran peer_time s tr (store tr s) e.
Proof. unfold timed_store_of. by rewrite timed_replay_app. Qed.

(** A conditional set leaves a key that has not expired as it is. *)
Lemma lasting_kept (name val : string) (lim : Z) (s : Server) (h : list Event)
    (st : gmap string (string * Z)) (s' : Server) (k v : string) (px : Z)
    (r : outcome pyval) :
  peer_time h s < lim ->
  lasting name val lim st ->
  lasting name val lim (timed_apply ran peer_time s h st (EvSet s' k v NX px r)).
Proof.
  intros Hnow (deadline & Hst & Hlim). exists deadline. split; [|exact Hlim].
  unfold timed_apply. destruct (decide (s' = s)) as [->|]; [|exact Hst].
  destruct (took_effect ran h s r); [|exact Hst].
  unfold timed_set.
  destruct ((px <? - 2 ^ 63) || (2 ^ 63 <=? px)); [exact Hst|].
  destruct ((px <=? 0) || (2 ^ 63 <=? peer_time h s + px)); [exact Hst|].
  assert (Hlive : live (peer_time h s) st !! name = Some (val, deadline)).
  { unfold live. apply map_lookup_filter_Some. split; [exact Hst|]. simpl. lia. }
  unfold store_set.
  destruct (live (peer_time h s) st !! k) eqn:Hk; simpl; [exact Hlive|].
  rewrite lookup_insert_ne; [exact Hlive|]. intros ->. congruence.
Qed.

(** A conditional set that a peer accepted has stored the key, to expire
    [ttl] after the moment of the request. *)
Lemma accepted_lasts (tr : list Event) (s : Server) (name val : string) (ttl : Z)
    (r : outcome pyval) :
  answers env tr (EvSet s name val NX ttl r) ->
  accepted (EvSet s name val NX ttl r) = true ->
  lasting name val (peer_time tr s + ttl) (store (tr ++ [EvSet s name val NX ttl r]) s).
Proof.
  simpl. intros -> Hacc. rewrite timed_store_of_snoc. unfold timed_apply.
  destruct (decide (s = s)) as [_|]; [|done].
  destruct (faults tr s); simpl in *; try discriminate.
  unfold timed_set in *.
  destruct ((ttl <? - 2 ^ 63) || (2 ^ 63 <=? ttl)); simpl in *; [discriminate|].
  destruct ((ttl <=? 0) || (2 ^ 63 <=? peer_time tr s + ttl)); simpl in *; [discriminate|].
  unfold store_set in *.
  destruct (live (peer_time tr s) (store tr s) !! name) eqn:Hst; simpl in *;
    [discriminate|].
  exists (peer_time tr s + ttl). rewrite lookup_insert_eq. split; [reflexivity | lia].
Qed.

Lemma lasting_through (name val : string) (ttl : Z) (lim : Z) (s : Server)
    (l : list Server) (sets : list Event) :
  Forall2 (is_set_nx name val ttl) l sets ->
  forall cur : list Event,
    (forall q, q `prefix_of` sets -> peer_time (cur ++ q) s < lim) ->
    lasting name val lim (store cur s) ->
    lasting name val lim (store (cur ++ sets) s).
Proof.
  induction 1 as [|s' e l sets [r ->] _ IH]; intros cur Hnow Hst.
  - by rewrite app_nil_r.
  - replace (cur ++ EvSet s' name val NX ttl r :: sets)
      with ((cur ++ [EvSet s' name val NX ttl r]) ++ sets) by (by rewrite <- app_assoc).
    apply IH.
    + intros q Hq. rewrite <- app_assoc. apply Hnow. by apply prefix_cons.
    + rewrite timed_store_of_snoc. apply lasting_kept; [|exact Hst].
      specialize (Hnow [] (prefix_nil _)). by rewrite app_nil_r in Hnow.
Qed.

(** In a fan-out during which no peer's clock reaches [lim s], and in
    which a key set at any moment lasts until [lim s] at least, every
    accepted set is a key that lasts until [lim s]. *)
Lemma fanout_lasts (name val : string) (ttl : Z) (lim : Server -> Z)
    (l : list Server) (sets : list Event) :
  Forall2 (is_set_nx name val ttl) l sets ->
  forall cur : list Event,
    (forall q s, q `prefix_of` sets -> peer_time (cur ++ q) s < lim s) ->
    (forall q s, q `prefix_of` sets -> lim s <= peer_time (cur ++ q) s + ttl) ->
    answered env cur sets ->
    exists good : list Server,
      count_accepted sets = Z.of_nat (length good) /\
      good `sublist_of` l /\
      Forall (fun s => lasting name val (lim s) (store (cur ++ sets) s)) good.
Proof.
  induction 1 as [|s e l sets [r ->] Hrest IH]; intros cur Hnow Hset Hans.
  - exists []. by repeat split.
  - destruct Hans as [Hans Hans'].
    destruct (IH (cur ++ [EvSet s name val NX ttl r])) as (good & Hcount & Hsub & Hgood).
    + intros q s' Hq. rewrite <- app_assoc. apply Hnow. by apply prefix_cons.
    + intros q s' Hq. rewrite <- app_assoc. apply Hset. by apply prefix_cons.
    + exact Hans'.
    + rewrite <- app_assoc in Hgood. cbn [app] in Hgood.
      rewrite count_accepted_cons.
      destruct (accepted (EvSet s name val NX ttl r)) eqn:Hacc.
      * exists (s :: good). split; [simpl length; lia|].
        split; [by apply sublist_skip|]. constructor; [|exact Hgood].
        replace (cur ++ EvSet s name val NX ttl r :: sets)
          with ((cur ++ [EvSet s name val NX ttl r]) ++ sets)
          by (by rewrite <- app_assoc).
        eapply lasting_through; [exact Hrest| |].
        -- intros q Hq. rewrite <- app_assoc. apply Hnow. by apply prefix_cons.
        -- destruct (accepted_lasts _ _ _ _ _ _ Hans Hacc) as (deadline & Hst & Hlim).
           exists deadline. split; [exact Hst|].
           specialize (Hset [] s (prefix_nil _)). rewrite app_nil_r in Hset. lia.
      * exists good. split; [lia|]. split; [by apply sublist_cons | exact Hgood].
Qed.

Lemma sublist_filter_length {A} (f : A -> bool) (good l : list A) :
  good `sublist_of` l -> Forall (fun x => f x = true) good ->
  (length good <= length (List.filter f l))%nat.
Proof.
  induction 1 as [|x good l Hsub IH|x good l Hsub IH]; intros Hall; simpl.
  - lia.
  - inversion Hall as [|? ? Hx Hrest]; subst. rewrite Hx. simpl.
    specialize (IH Hrest). lia.
  - specialize (IH Hall). destruct (f x); simpl; lia.
Qed.

(** X9: on Redis peers that expire their keys and whose clocks gain at
    most 1% and 2 ms on the caller's, the validity of a handle is safe: at
    the moment [lock] takes the second clock reading of the successful
    attempt, at least [quorum] entries of the peer list hold the resource
    with the token of the handle, each for [validity] milliseconds more, or
    longer, by its own clock. *)
Theorem lock_handle_is_held_by_a_quorum (self : Redlock) (name : string)
    (ttl : Z) (w : World) (h : Lock) :
  monotone_peers peer_time ->
  bounded_drift peer_time clock ->
  0 < ttl < 2 ^ 53 ->
  fst (lock env self name ttl w) = Ret (Some h) ->
  exists pre t1,
    trace (snd (lock env self name ttl w)) = pre ++ [EvTime t1] /\
    quorum self
    <= Z.of_nat (length (List.filter
                           (outlives ran peer_time pre name (key h) (validity h))
                           (servers self))).
Proof.
  intros Hmono Hdrift Httl.
  destruct (extends_lock env self name ttl w) as (all & Htrace & Hans).
  destruct (lock_run env self name ttl w)
    as (val & evs & atts & r & _ & _ & Hrun & Hshape).
  rewrite Hrun in *. cbn [fst snd trace] in *. intros ->.
  apply app_inv_head in Htrace. subst all.
  apply shape_cases in Hshape as [(drift & Hd & Hshape) | (e & _ & _ & _ & He)];
    [|discriminate He].
  rewrite (lock_drift_quot ttl ltac:(lia)) in Hd. inversion Hd as [Hdq]. clear Hd.
  destruct (rounds_acquired_trace _ _ _ _ _ _ _ _ _ _ _ Hshape)
    as (mid & t0 & sets & t1 & a & -> & Hfan & [Hv Hq] & ->).
  destruct (fanout_attempt _ _ _ _ _ _ _ _ _ _ _ Hfan) as (_ & Hcount & Hval & _).
  destruct Hfan as [Ht0 Hsets Ht1 Ha].
  set (choices := map EvChoice (list_ascii_of_string val)) in *.
  assert (Hpre : answered env (((trace w ++ choices) ++ mid) ++ [EvTime t0]) sets).
  { replace (choices ++ mid ++ EvTime t0 :: sets ++ [EvTime t1])
      with ((choices ++ mid ++ [EvTime t0]) ++ sets ++ [EvTime t1]) in Hans
      by (norm_app; reflexivity).
    apply answered_app in Hans as [_ Hans].
    apply answered_app in Hans as [Hans _].
    rewrite !app_assoc in Hans. exact Hans. }
  set (pre0 := (trace w ++ choices) ++ mid) in *.
  exists ((pre0 ++ [EvTime t0]) ++ sets), t1.
  split; [subst pre0; norm_app; reflexivity|].
  rewrite Ha in Hv, Hval |- *. cbn [att_validity elapsed_time n key] in *.
  unfold validity.
  set (el := t1 - t0) in *. set (v := ttl - el - drift) in *.
  assert (Hel : el + el / 100 + 2 + v <= ttl).
  { rewrite Z.quot_div_nonneg in Hdq by lia.
    assert (0 <= ttl / 100) by (apply Z.div_pos; lia).
    assert (el / 100 <= ttl / 100) by (apply Z.div_le_mono; lia).
    lia. }
  set (base := pre0 ++ [EvTime t0]) in *.
  assert (Hspan : forall q s, q `prefix_of` sets ->
            peer_time (base ++ q) s + v <= peer_time base s + ttl).
  { intros q s [k ->].
    assert (Hc1 : clock (pre0 ++ EvTime t0 :: q ++ k) = t1) by (symmetry; exact Ht1).
    assert (Hc0 : clock pre0 = t0) by (symmetry; exact Ht0).
    assert (Heq : (base ++ q) ++ k = pre0 ++ EvTime t0 :: q ++ k)
      by (unfold base; rewrite <- !app_assoc; reflexivity).
    pose proof (Hmono (base ++ q) k s) as H1. rewrite Heq in H1.
    pose proof (Hdrift pre0 (EvTime t0 :: q ++ k) s) as H2. rewrite Hc1, Hc0 in H2.
    pose proof (Hmono pre0 [EvTime t0] s) as H3. fold base in H3.
    fold el in H2. lia. }
  destruct (fanout_lasts name val ttl (fun s => peer_time base s + ttl)
              (servers self) sets Hsets base) as (good & Hgcount & Hsub & Hgood).
  - intros q s Hpref. specialize (Hspan q s Hpref). lia.
  - intros q s _. pose proof (Hmono base q s). lia.
  - exact Hpre.
  - assert (Hlen : (length good <= length (List.filter
                      (outlives ran peer_time (base ++ sets) name val v) (servers self)))%nat).
    { apply sublist_filter_length; [exact Hsub|].
      eapply Forall_impl; [exact Hgood|]. intros s (deadline & Hst & Hlim).
      unfold outlives. rewrite Hst. rewrite bool_decide_eq_true_2 by done. simpl.
      apply Z.leb_le. specialize (Hspan sets s ltac:(done)). lia. }
    rewrite Hcount in Hq. lia.
Qed.

End Expiry.

Lemma tick_peers_monotone : monotone_peers tick_peers.
Proof. intros tr tr' s. unfold tick_peers. rewrite length_app. lia. Qed.

Lemma tick_peers_drift : bounded_drift tick_peers tick_clock.
Proof.
  intros tr tr' s. unfold tick_peers, tick_clock. rewrite length_app.
  assert (0 <= (10 * Z.of_nat (length tr + length tr') - 10 * Z.of_nat (length tr)) / 100)
    by (apply Z.div_pos; lia).
  lia.
Qed.

Lemma three_peers_hold_the_handle :
  exists pre t1,
    trace (snd (lock (timed_env no_faults tick_peers tick_clock count_rnd)
                  three_peers "res" 10000 w0)) = pre ++ [EvTime t1] /\
    quorum three_peers
    <= Z.of_nat (length (List.filter
                           (outlives (reached no_faults) tick_peers pre "res"
                              (key held_lock) (validity held_lock))
                           (servers three_peers))).
Proof.
  exact (lock_handle_is_held_by_a_quorum no_faults tick_peers tick_clock count_rnd
           three_peers "res" 10000 w0 held_lock
           tick_peers_monotone tick_peers_drift
           ltac:(split; [lia | vm_compute; reflexivity])
           ltac:(vm_compute; reflexivity)).
Defined.

(** ** The cost of a call *)

(** X11: [lock] does not stop at the quorum.  A call with [a] attempts on
    [N] peers issues [a * N] conditional sets, one for each peer in each
    attempt, and [a * N] releases when it fails, [(a - 1) * N] when it
    returns a handle: none after the successful attempt. *)
Theorem lock_contacts_every_peer_in_every_attempt (env : Env) (self : Redlock)
    (name : string) (ttl : Z) (w : World) :
  exists val evs atts,
    trace (snd (lock env self name ttl w))
    = trace w ++ map EvChoice (list_ascii_of_string val) ++ evs /\
    attempts (snd (lock env self name ttl w)) = attempts w ++ atts /\
    (length (List.filter is_set evs) = length atts * length (servers self))%nat /\
    (length (List.filter is_eval evs)
     = (length atts - (if is_handle (fst (lock env self name ttl w)) then 1 else 0))
       * length (servers self))%nat.
Proof.
  destruct (lock_run env self name ttl w)
    as (val & evs & atts & r & _ & _ & Hrun & Hshape).
  exists val, evs, atts. rewrite Hrun. cbn [fst snd trace attempts].
  split; [reflexivity|]. split; [reflexivity|].
  exact (shape_counted _ _ _ _ _ _ _ _ _ Hshape).
Qed.

(** ** The renewal loop on its own *)

Lemma loop_steps_add (env : Env) (a b : nat) : forall t flag tr,
  loop_steps env (a + b) t flag tr
  = let '(t1, f1, tr1) := loop_steps env a t flag tr in loop_steps env b t1 f1 tr1.
Proof.
  induction a as [|a IH]; intros t flag tr; simpl; [reflexivity|].
  destruct (loop_step env t flag tr) as [[t1 f1] tr1]. apply IH.
Qed.





(** X13: once the flag is set and stays set, a renewal loop ends within
    four of its steps, wherever it stands, and issues at most one more
    renewal on the way. *)
Theorem renewal_loop_ends_once_the_flag_is_set (env : Env) (t : Thread)
    (tr : list Event) :
  let '(t', flag', tr') := loop_steps env 4 t true tr in
  pc t' = Finished /\ flag' = true /\
  (length (List.filter is_set tr') <= length (List.filter is_set tr) + 1)%nat.
Proof.
  destruct t as [server name val ttl p].
  destruct p; cbn [loop_steps loop_step pc set_pc th_server th_resource th_val th_ttl];
    rewrite ?List.filter_app, ?length_app; simpl; try (repeat split; lia).
  - destruct (server_set env _ server name val XX ttl) as [v|e];
      [destruct (truthy v)|]; simpl;
      rewrite ?List.filter_app, ?length_app; simpl; repeat split; lia.
  - destruct (server_set env tr server name val XX ttl) as [v|e];
      [destruct (truthy v)|]; simpl;
      rewrite ?List.filter_app, ?length_app; simpl; repeat split; lia.
Qed.

(** ** Stopping the extender, under every schedule *)

Lemma nth_error_replace_nth_ne {A} (l : list A) : forall (i j : nat) (x : A),
  i <> j -> nth_error (replace_nth l j x) i = nth_error l i.
Proof.
  induction l as [|y l IH]; intros i j x Hne; [by destruct j|].
  destruct j as [|j], i as [|i]; simpl; try done. apply IH. congruence.
Qed.

Lemma nth_error_replace_nth_eq {A} (l : list A) : forall (i : nat) (x y : A),
  nth_error l i = Some y -> nth_error (replace_nth l i x) i = Some x.
Proof.
  induction l as [|z l IH]; intros i x y H; [by destruct i|].
  destruct i as [|i]; simpl in *; [done | by eapply IH].
Qed.

(** What a step of a worker is. *)
Lemma worker_step (env : Env) (i : nat) (s : Sys) (prog : list main_op) (t : Thread) :
  nth_error (threads s) i = Some t ->
  pc t <> Finished ->
  sys_step env (Worker i) s prog
  = Some (MkSys (snd (fst (loop_step env t (event s) (sys_trace s))))
                (replace_nth (threads s) i (fst (fst (loop_step env t (event s) (sys_trace s)))))
                (expiry_extender s)
                (snd (loop_step env t (event s) (sys_trace s))),
          prog).
Proof.
  intros Ht Hpc. unfold sys_step. rewrite Ht.
  destruct (loop_step env t (event s) (sys_trace s)) as [[t' f'] tr'].
  by destruct (pc t).
Qed.

Lemma worker_step_inv (env : Env) (j : nat) (s s' : Sys) (prog prog' : list main_op) :
  sys_step env (Worker j) s prog = Some (s', prog') ->
  prog' = prog /\ expiry_extender s' = expiry_extender s /\
  forall i, is_alive s i = false -> is_alive s' i = false.
Proof.
  unfold sys_step. destruct (nth_error (threads s) j) as [t|] eqn:Ht; [|discriminate].
  destruct (loop_step env t (event s) (sys_trace s)) as [[t' f'] tr'].
  intros H.
  assert (Hpc : pc t <> Finished) by (intros Hf; rewrite Hf in H; discriminate).
  assert (Hs : s' = MkSys f' (replace_nth (threads s) j t') (expiry_extender s) tr'
               /\ prog' = prog).
  { destruct (pc t); try done; by inversion H. }
  destruct Hs as [-> ->]. split; [reflexivity|]. split; [reflexivity|].
  intros i. unfold is_alive. simpl.
  destruct (decide (i = j)) as [->|Hne].
  - rewrite Ht. by destruct (pc t).
  - by rewrite nth_error_replace_nth_ne.
Qed.

Lemma stop_keeps_joined (env : Env) (i : nat) (s' : Sys) (sched : list tid) :
  forall (s : Sys) (prog : list main_op),
    expiry_extender s = Some i ->
    prog = stop_expiry_extender \/ prog = [StopJoin; StopClear] \/
    ((prog = [StopClear] \/ prog = []) /\ is_alive s i = false) ->
    run env sched s prog = Some (s', []) ->
    is_alive s' i = false.
Proof.
  induction sched as [|who sched IH]; intros s prog Hext Hinv Hrun; simpl in Hrun.
  - inversion Hrun; subst.
    destruct Hinv as [?|[?|[_ ?]]]; [discriminate | discriminate | done].
  - destruct (sys_step env who s prog) as [[s1 prog1]|] eqn:Hstep; [|discriminate].
    destruct who as [|j].
    + destruct prog as [|op rest]; [discriminate|]. simpl in Hstep.
      destruct (main_step op s) as [s2|] eqn:Hmain; [|discriminate].
      inversion Hstep; subst.
      destruct Hinv as [Hp|[Hp|[[Hp|Hp] Hdead]]]; inversion Hp; subst;
        simpl in Hmain.
      * inversion Hmain; subst.
        refine (IH _ [StopJoin; StopClear] _ _ Hrun); [exact Hext | by right; left].
      * rewrite Hext in Hmain. destruct (is_alive s i) eqn:Halive; [discriminate|].
        inversion Hmain; subst.
        apply (IH s1 [StopClear]); [exact Hext| |exact Hrun].
        right. right. split; [by left|done].
      * inversion Hmain; subst.
        refine (IH _ [] _ _ Hrun); [exact Hext|].
        right. right. split; [by right | exact Hdead].
    + apply worker_step_inv in Hstep as (-> & Hext1 & Halive).
      apply (IH s1 prog); [congruence| |exact Hrun].
      destruct Hinv as [?|[?|[? ?]]]; [by left | by right; left |].
      right. right. split; [done | by apply Halive].
Qed.

(** X14: [stop_expiry_extender] returns only when the loop it recorded has
    ended.  Whatever the threads do in between and afterwards, if the call
    runs to its end, the recorded extender is not alive. *)
Theorem stop_returns_after_the_recorded_loop (env : Env) (sched : list tid)
    (s s' : Sys) (i : nat) :
  expiry_extender s = Some i ->
  run env sched s stop_expiry_extender = Some (s', []) ->
  is_alive s' i = false.
Proof.
  intros Hext Hrun. eapply stop_keeps_joined; [exact Hext| |exact Hrun]. by left.
Qed.

Lemma stop_of_one_extender :
  exists s',
    run plain_env [Main; Worker 0; Worker 0; Worker 0; Main; Main]
        one_extender stop_expiry_extender = Some (s', []) /\
    is_alive s' 0 = false.
Proof.
  eexists. split; [vm_compute; reflexivity|].
  apply (stop_returns_after_the_recorded_loop plain_env
           [Main; Worker 0; Worker 0; Worker 0; Main; Main] one_extender _ 0%nat).
  - reflexivity.
  - vm_compute. reflexivity.
Defined.

Lemma run_app (env : Env) (a b : list tid) : forall (s : Sys) (prog : list main_op),
  run env (a ++ b) s prog
  = match run env a s prog with
    | Some (s1, prog1) => run env b s1 prog1
    | None => None
    end.
Proof.
  induction a as [|who a IH]; intros s prog; simpl; [reflexivity|].
  destruct (sys_step env who s prog) as [[s1 prog1]|]; [apply IH | reflexivity].
Qed.

Lemma loop_step_with_flag (env : Env) (t : Thread) (tr : list Event) :
  pc t <> Finished ->
  snd (fst (loop_step env t true tr)) = true /\
  (steps_to_end (pc (fst (fst (loop_step env t true tr)))) < steps_to_end (pc t))%nat.
Proof.
  intros Hpc. unfold loop_step. destruct (pc t); simpl; try (split; [done|lia]); [|done].
  destruct (server_set env tr _ _ _ XX _) as [v|e]; [destruct (truthy v)|];
    simpl; split; try done; lia.
Qed.

(** With the flag set, the loop of thread [i] ends when it is given its
    steps, four at most. *)
Lemma loop_ends (env : Env) (i : nat) (prog : list main_op) (n : nat) :
  forall (s : Sys) (t : Thread),
    nth_error (threads s) i = Some t ->
    event s = true ->
    (steps_to_end (pc t) <= n)%nat ->
    exists ws s',
      (length ws <= n)%nat /\
      run env ws s prog = Some (s', prog) /\
      is_alive s' i = false /\
      expiry_extender s' = expiry_extender s /\
      event s' = true.
Proof.
  induction n as [|n IH]; intros s t Ht Hflag Hn.
  - exists [], s. split; [simpl; lia|]. split; [reflexivity|].
    split; [|split; [reflexivity | exact Hflag]].
    unfold is_alive. rewrite Ht. destruct (pc t); simpl in Hn; first [reflexivity | lia].
  - assert (Hcase : pc t = Finished \/ pc t <> Finished)
      by (destruct (pc t); (by left) || (by right)).
    destruct Hcase as [Hfin|Hpc].
    + exists [], s. split; [simpl; lia|]. split; [reflexivity|].
      split; [|split; [reflexivity | exact Hflag]].
      unfold is_alive. by rewrite Ht, Hfin.
    + pose proof (worker_step env i s prog t Ht Hpc) as Hstep.
      rewrite Hflag in Hstep.
      destruct (loop_step_with_flag env t (sys_trace s) Hpc) as [Hset Hless].
      set (s1 := MkSys _ _ _ _) in Hstep.
      destruct (IH s1 (fst (fst (loop_step env t true (sys_trace s)))))
        as (ws & s' & Hlen & Hrun & Hdead & Hext & Hev).
      * subst s1. simpl. by eapply nth_error_replace_nth_eq.
      * subst s1. simpl. exact Hset.
      * lia.
      * exists (Worker i :: ws), s'. split; [simpl; lia|].
        split; [cbn [run]; rewrite Hstep; exact Hrun|].
        split; [exact Hdead|]. split; [exact Hext | exact Hev].
Qed.

Lemma stop_schedule (env : Env) (s : Sys) :
  exists sched s',
    (length sched <= 7)%nat /\
    run env sched s stop_expiry_extender = Some (s', []) /\
    event s' = false.
Proof.
  pose (s1 := MkSys true (threads s) (expiry_extender s) (sys_trace s)).
  assert (Hjoin : forall s2 : Sys,
            expiry_extender s2 = expiry_extender s ->
            (forall i, expiry_extender s = Some i -> is_alive s2 i = false) ->
            run env [Main; Main] s2 [StopJoin; StopClear]
            = Some (MkSys false (threads s2) (expiry_extender s2) (sys_trace s2), [])).
  { intros s2 Hext Hd. simpl. rewrite Hext.
    destruct (expiry_extender s) as [i|] eqn:Hs; [rewrite (Hd i eq_refl)|];
      simpl; rewrite ?Hext; reflexivity. }
  assert (Hfirst : forall sched,
            run env (Main :: sched) s stop_expiry_extender
            = run env sched s1 [StopJoin; StopClear]) by reflexivity.
  assert (Hcase : (exists i t, expiry_extender s = Some i /\ nth_error (threads s) i = Some t)
                  \/ (forall i, expiry_extender s = Some i -> is_alive s1 i = false)).
  { destruct (expiry_extender s) as [i|] eqn:Hs; [|by right].
    destruct (nth_error (threads s) i) as [t|] eqn:Ht; [left; by exists i, t|].
    right. intros j Hj. inversion Hj; subst. unfold is_alive. simpl. by rewrite Ht. }
  destruct Hcase as [(i & t & Hext & Ht)|Hd].
  - destruct (loop_ends env i [StopJoin; StopClear] 4 s1 t Ht eq_refl)
      as (ws & s2 & Hlen & Hrun & Hd & Hext2 & _).
    { destruct (pc t); simpl; lia. }
    exists (Main :: ws ++ [Main; Main]),
      (MkSys false (threads s2) (expiry_extender s2) (sys_trace s2)).
    split; [simpl; rewrite length_app; simpl; lia|]. split; [|reflexivity].
    rewrite Hfirst, run_app, Hrun. apply Hjoin; [exact Hext2|].
    intros j Hj. rewrite Hext in Hj. by inversion Hj; subst.
  - exists [Main; Main; Main],
      (MkSys false (threads s1) (expiry_extender s1) (sys_trace s1)).
    split; [simpl; lia|]. split; [|reflexivity].
    rewrite Hfirst. by apply Hjoin.
Qed.

(** X15: [stop_expiry_extender] cannot hang on a loop that runs: from any
    state of the manager and its threads there is a schedule, of seven
    steps at most, under which the call returns; the flag is then cleared. *)
Theorem stop_can_always_return (env : Env) (s : Sys) :
  exists sched s',
    (length sched <= 7)%nat /\
    run env sched s stop_expiry_extender = Some (s', []) /\
    event s' = false.
Proof. apply stop_schedule. Qed.

(** ** ExpiryExtendingRedlock.lock against Redlock.lock *)

Lemma grow_nil (x : Extenders) : grow x [] = x.
Proof. destruct x. unfold grow. simpl. by rewrite app_nil_r. Qed.

Lemma grow_grow (x : Extenders) (a b : list Thread) :
  grow (grow x a) b = grow x (a ++ b).
Proof.
  unfold grow. simpl. rewrite <- app_assoc. f_equal.
  destruct b as [|t b]; [by rewrite app_nil_r | by destruct a].
Qed.

Lemma started_by_app (a b : list Event) :
  started_by (a ++ b) = started_by a ++ started_by b.
Proof. unfold started_by. apply flat_map_app. Qed.

Lemma started_by_releases (name val : string) (l : list Server) (evals : list Event) :
  Forall2 (is_release name val) l evals -> started_by evals = [].
Proof. induction 1 as [|s e l evals [r ->] _ IH]; [done | exact IH]. Qed.

Lemma started_by_cons (e : Event) (evs : list Event) :
  started_by (e :: evs) = thread_of e ++ started_by evs.
Proof. reflexivity. Qed.

Lemma ext_lock_servers_run (env : Env) (name val : string) (ttl : Z)
    (l : list Server) : forall (acc : Z) (w : World) (x : Extenders),
  exists sets,
    lock_servers env l name val ttl acc w
    = (Ret (acc + count_accepted sets), MkWorld (trace w ++ sets) (attempts w)) /\
    Forall2 (is_set_nx name val ttl) l sets /\
    ext_lock_servers env l name val ttl acc (w, x)
    = (Ret (acc + count_accepted sets),
       (MkWorld (trace w ++ sets) (attempts w), grow x (started_by sets))).
Proof.
  induction l as [|s l IH]; intros acc w x.
  - exists []. simpl. unfold ret, retE, count_accepted. simpl.
    rewrite Z.add_0_r, app_nil_r, grow_nil. by destruct w.
  - destruct (lock_instance_run env name ttl val s w) as (r & v & Hrun & Hv).
    cbn [lock_servers ext_lock_servers]. unfold bind, bindE, lift.
    cbn [fst snd]. rewrite Hrun.
    destruct (truthy v) eqn:Htr; symmetry in Hv.
    + unfold start_extender. cbn [fst snd].
      assert (Hx : MkExtenders (ext_threads x ++ [MkThread s name val ttl AtTest])
                               (Some (length (ext_threads x)))
                   = grow x [MkThread s name val ttl AtTest]).
      { unfold grow. f_equal. f_equal. rewrite length_app. simpl. lia. }
      rewrite Hx.
      destruct (IH (acc + 1) (MkWorld (trace w ++ [EvSet s name val NX ttl r]) (attempts w))
                  (grow x [MkThread s name val ttl AtTest]))
        as (sets & Hbase & Hshape & Hext).
      exists (EvSet s name val NX ttl r :: sets). rewrite Hbase, Hext.
      rewrite count_accepted_cons, started_by_cons. unfold thread_of.
      rewrite Hv. cbn [trace attempts]. rewrite <- app_assoc. cbn [app].
      replace (acc + 1 + count_accepted sets) with (acc + (1 + count_accepted sets)) by lia.
      split; [reflexivity|]. split; [constructor; [by exists r | done]|].
      by rewrite grow_grow.
    + destruct (IH acc (MkWorld (trace w ++ [EvSet s name val NX ttl r]) (attempts w)) x)
        as (sets & Hbase & Hshape & Hext).
      exists (EvSet s name val NX ttl r :: sets). rewrite Hbase, Hext.
      rewrite count_accepted_cons, started_by_cons. unfold thread_of.
      rewrite Hv. cbn [trace attempts app]. rewrite <- app_assoc. cbn [app].
      split; [reflexivity|]. split; [constructor; [by exists r | done]|].
      reflexivity.
Qed.

Lemma ext_lock_round_run (env : Env) (self : Redlock) (name : string) (ttl : Z)
    (val : string) (drift : Z) (w : World) (x : Extenders) :
  exists evs,
    trace (snd (lock_round env self name ttl val drift w)) = trace w ++ evs /\
    ext_lock_round env self name ttl val drift (w, x)
    = (fst (lock_round env self name ttl val drift w),
       (snd (lock_round env self name ttl val drift w), grow x (started_by evs))).
Proof.
  unfold lock_round, lock_attempt, ext_lock_round, bind, bindE, lift, now_ms,
    note_attempt, ret, retE. simpl.
  set (t0 := time_ms env (trace w)).
  set (w1 := MkWorld (trace w ++ [EvTime t0]) (attempts w)).
  destruct (ext_lock_servers_run env name val ttl (servers self) 0 w1 x)
    as (sets & Hbase & Hshape & Hext).
  rewrite Hbase, Hext. simpl.
  set (t1 := time_ms env ((trace w ++ [EvTime t0]) ++ sets)).
  set (n := 0 + count_accepted sets).
  destruct ((ttl - (t1 - t0) - drift >? 0) && (n >=? quorum self)).
  - exists (EvTime t0 :: sets ++ [EvTime t1]). simpl.
    split; [by norm_app|].
    rewrite started_by_app. simpl. by rewrite app_nil_r.
  - set (w2 := MkWorld _ _).
    destruct (lock_cleanup_run env self name val w2) as (evals & Hclean & Hrel).
    rewrite Hclean.
    exists (EvTime t0 :: sets ++ EvTime t1 :: evals ++ [EvSleep (retry_delay self)]).
    assert (Hstarted : started_by (EvTime t0 :: sets ++ EvTime t1 :: evals
                                     ++ [EvSleep (retry_delay self)])
                       = started_by sets).
    { change (EvTime t0 :: sets ++ EvTime t1 :: evals ++ [EvSleep (retry_delay self)])
        with ([EvTime t0] ++ sets ++ [EvTime t1] ++ evals ++ [EvSleep (retry_delay self)]).
      rewrite !started_by_app, (started_by_releases _ _ _ _ Hrel). simpl.
      by rewrite app_nil_r. }
    rewrite Hstarted.
    destruct (time_sleep env (retry_delay self)) as [[]|e]; simpl; rewrite ?Hclean; simpl;
      (split; [by norm_app | reflexivity]).
Qed.

Lemma lock_while_grows (env : Env) (self : Redlock) (name : string) (ttl : Z)
    (val : string) (drift : Z) : forall (fuel : nat) (retry : Z) (w : World)
    (x : Extenders),
  exists evs,
    trace (snd (lock_while env fuel self name ttl val drift retry w)) = trace w ++ evs /\
    ext_lock_while env fuel self name ttl val drift retry (w, x)
    = (fst (lock_while env fuel self name ttl val drift retry w),
       (snd (lock_while env fuel self name ttl val drift retry w),
        grow x (started_by evs))).
Proof.
  induction fuel as [|fuel IH]; intros retry w x; simpl;
    destruct (retry <? retry_count self);
    try (exists []; unfold ret, retE; simpl; by rewrite app_nil_r, grow_nil).
  destruct (ext_lock_round_run env self name ttl val drift w x) as (evs & Htr & Hext).
  unfold bind, bindE. rewrite Hext.
  destruct (lock_round env self name ttl val drift w) as [[[h|]|e] w1]; simpl in *.
  - exists evs. by split.
  - destruct (IH (retry + 1) w1 (grow x (started_by evs))) as (more & Htr' & Hext').
    exists (evs ++ more). rewrite Hext', Htr', Htr, <- app_assoc.
    split; [reflexivity|]. by rewrite grow_grow, started_by_app.
  - exists evs. by split.
Qed.

Lemma started_by_choices (l : list ascii) : started_by (map EvChoice l) = [].
Proof. induction l as [|c l IH]; [reflexivity | exact IH]. Qed.

(** X16: [ExpiryExtendingRedlock.lock] returns what [Redlock.lock]
    returns and makes the same calls in the same order.  In addition it
    starts one renewal thread for every conditional set of the call that a
    peer accepted, those of failed attempts included, and records the last
    one started; it stops none. *)
Theorem ext_lock_is_lock_with_extenders (env : Env) (self : Redlock)
    (name : string) (ttl : Z) (w : World) (x : Extenders) :
  exists evs,
    trace (snd (lock env self name ttl w)) = trace w ++ evs /\
    ext_lock env self name ttl (w, x)
    = (fst (lock env self name ttl w),
       (snd (lock env self name ttl w), grow x (started_by evs))).
Proof.
  unfold lock, ext_lock, bind, bindE, lift, of_outcome. cbn [fst snd].
  destruct (random_string_run env 22 w) as (val & Hid & _).
  change (get_unique_id env w) with (random_string env 22 w). rewrite Hid.
  cbn [fst snd]. destruct (lock_drift ttl) as [drift|e].
  - destruct (lock_while_grows env self name ttl val drift
                (Z.to_nat (retry_count self - 0)) 0
                (MkWorld (trace w ++ map EvChoice (list_ascii_of_string val)) (attempts w)) x)
      as (evs & Htr & Hext).
    exists (map EvChoice (list_ascii_of_string val) ++ evs).
    rewrite Hext, Htr. cbn [trace]. split; [by rewrite <- app_assoc|].
    do 3 f_equal. rewrite started_by_app.
    by rewrite started_by_choices.
  - exists (map EvChoice (list_ascii_of_string val)). cbn [fst snd trace].
    split; [reflexivity|]. by rewrite started_by_choices, grow_nil.
Qed.

(** ** ExpiryExtendingRedlock.unlock under every schedule *)

Lemma main_step_trace (op : main_op) (s s' : Sys) :
  main_step op s = Some s' -> sys_trace s' = sys_trace s.
Proof.
  destruct op; simpl; intros H; try (by inversion H).
  destruct (expiry_extender s) as [i|]; [destruct (is_alive s i)|]; by inversion H.
Qed.

Lemma worker_step_trace (env : Env) (j : nat) (s s' : Sys) (prog prog' : list main_op) :
  sys_step env (Worker j) s prog = Some (s', prog') ->
  List.filter is_eval (sys_trace s') = List.filter is_eval (sys_trace s).
Proof.
  unfold sys_step. destruct (nth_error (threads s) j) as [t|]; [|discriminate].
  unfold loop_step.
  destruct (pc t); intros H; inversion H; subst; simpl;
    rewrite ?List.filter_app; simpl; by rewrite ?app_nil_r.
Qed.

Lemma ext_run_releases (env : Env) (s' : Sys) (sched : list tid) :
  forall (s : Sys) (prog : list ext_op),
    ext_run env sched s prog = Some (s', []) ->
    exists evals,
      List.filter is_eval (sys_trace s') = List.filter is_eval (sys_trace s) ++ evals /\
      Forall2 (fun '(server, name, val) e => is_release name val server e)
              (releases_of prog) evals.
Proof.
  induction sched as [|who sched IH]; intros s prog Hrun; simpl in Hrun.
  - inversion Hrun; subst. exists []. rewrite app_nil_r. split; [done | constructor].
  - destruct (ext_sys_step env who s prog) as [[s1 prog1]|] eqn:Hstep; [|discriminate].
    destruct (IH _ _ Hrun) as (evals & Htr & Hrel).
    destruct who as [|j]; unfold ext_sys_step in Hstep.
    + destruct prog as [|[op|server name val] rest]; [discriminate| |].
      * cbn [ext_main_step] in Hstep.
        destruct (main_step op s) as [s2|] eqn:Hmain; [|discriminate].
        inversion Hstep; subst. apply main_step_trace in Hmain.
        exists evals. rewrite Htr, Hmain. by split.
      * cbn [ext_main_step] in Hstep. inversion Hstep; subst. cbn [sys_trace] in Htr.
        rewrite List.filter_app in Htr. cbn [List.filter is_eval] in Htr.
        eexists (_ :: evals). rewrite Htr, <- app_assoc. split; [reflexivity|].
        constructor; [by eexists | exact Hrel].
    + destruct (sys_step env (Worker j) s []) as [[s2 p2]|] eqn:Hw; [|discriminate].
      inversion Hstep; subst. apply worker_step_trace in Hw.
      exists evals. rewrite Htr, Hw. by split.
Qed.

Lemma releases_of_unlock (h : Lock) (l : list Server) :
  releases_of (flat_map (fun server =>
                           map Manager stop_expiry_extender
                           ++ [Release server (resource h) (key h)]) l)
  = map (fun server => (server, resource h, key h)) l.
Proof. induction l as [|s l IH]; simpl; [reflexivity | by rewrite <- IH]. Qed.

(** X17: under every schedule of the caller and the renewal threads, an
    [ExpiryExtendingRedlock.unlock] that runs to its end has issued exactly
    one release for the handle to every peer of the manager, in the order of
    the peer list; the threads issue none. *)
Theorem ext_unlock_releases_every_peer (env : Env) (sched : list tid)
    (self : Redlock) (h : Lock) (s s' : Sys) :
  ext_run env sched s (ext_unlock self h) = Some (s', []) ->
  exists evals,
    List.filter is_eval (sys_trace s') = List.filter is_eval (sys_trace s) ++ evals /\
    Forall2 (is_release (resource h) (key h)) (servers self) evals.
Proof.
  intros Hrun. destruct (ext_run_releases env s' sched s _ Hrun) as (evals & Htr & Hrel).
  exists evals. split; [exact Htr|].
  unfold ext_unlock in Hrel. rewrite releases_of_unlock in Hrel.
  clear -Hrel. revert evals Hrel.
  induction (servers self) as [|sv l IH]; intros evals Hrel;
    inversion Hrel; subst; constructor; auto.
Qed.

Lemma ext_unlock_of_two_peers :
  exists s' evals,
    ext_run plain_env
      [Main; Worker 0; Worker 0; Worker 0; Main; Main; Main; Main; Main; Main; Main]
      one_extender (ext_unlock two_peers held_lock) = Some (s', []) /\
    List.filter is_eval (sys_trace s')
    = List.filter is_eval (sys_trace one_extender) ++ evals /\
    Forall2 (is_release "res" tok) [peer "a"; peer "b"] evals.
Proof.
  eexists.
  destruct (ext_unlock_releases_every_peer plain_env
              [Main; Worker 0; Worker 0; Worker 0; Main; Main; Main; Main; Main; Main; Main]
              two_peers held_lock one_extender _ ltac:(vm_compute; reflexivity))
    as (evals & Htr & Hrel).
  exists evals. split; [vm_compute; reflexivity|]. by split.
Defined.

Lemma ext_run_app (env : Env) (a b : list tid) : forall (s : Sys) (prog : list ext_op),
  ext_run env (a ++ b) s prog
  = match ext_run env a s prog with
    | Some (s1, prog1) => ext_run env b s1 prog1
    | None => None
    end.
Proof.
  induction a as [|who a IH]; intros s prog; simpl; [reflexivity|].
  destruct (ext_sys_step env who s prog) as [[s1 prog1]|]; [apply IH | reflexivity].
Qed.

Lemma worker_step_any_program (env : Env) (j : nat) (s s' : Sys)
    (prog prog' : list main_op) :
  sys_step env (Worker j) s prog = Some (s', prog') ->
  prog' = prog /\ sys_step env (Worker j) s [] = Some (s', []).
Proof.
  unfold sys_step. destruct (nth_error (threads s) j) as [t|]; [|discriminate].
  destruct (loop_step env t (event s) (sys_trace s)) as [[t' f'] tr'].
  destruct (pc t); intros H; inversion H; by subst.
Qed.

Lemma ext_run_manager (env : Env) (rest : list ext_op) (sched : list tid) :
  forall (s s' : Sys) (ops ops' : list main_op),
    run env sched s ops = Some (s', ops') ->
    ext_run env sched s (map Manager ops ++ rest)
    = Some (s', map Manager ops' ++ rest).
Proof.
  induction sched as [|who sched IH]; intros s s' ops ops' Hrun; simpl in Hrun.
  - by inversion Hrun.
  - destruct (sys_step env who s ops) as [[s1 ops1]|] eqn:Hstep; [|discriminate].
    cbn [ext_run]. destruct who as [|j]; unfold ext_sys_step.
    + destruct ops as [|op ops0]; [discriminate|]. simpl in Hstep.
      destruct (main_step op s) as [s2|] eqn:Hmain; [|discriminate].
      inversion Hstep; subst. cbn [map app ext_main_step]. rewrite Hmain. by apply IH.
    + apply worker_step_any_program in Hstep as [-> Hw]. rewrite Hw.
      by apply IH.
Qed.

(** X18: [ExpiryExtendingRedlock.unlock] cannot hang on loops that run:
    from every state of the manager and its threads there is a schedule, of
    eight steps for each peer at most, under which it runs to its end. *)
Theorem ext_unlock_can_always_return (env : Env) (self : Redlock) (h : Lock)
    (s : Sys) :
  exists sched s',
    (length sched <= 8 * length (servers self))%nat /\
    ext_run env sched s (ext_unlock self h) = Some (s', []).
Proof.
  unfold ext_unlock. revert s.
  induction (servers self) as [|sv l IH]; intros s.
  - exists [], s. by split.
  - destruct (stop_schedule env s) as (stop_sched & s1 & Hlen & Hstop & _).
    set (rest := flat_map (fun server => map Manager stop_expiry_extender
                                         ++ [Release server (resource h) (key h)]) l).
    pose (s2 := MkSys (event s1) (threads s1) (expiry_extender s1)
                  (sys_trace s1 ++ [EvEval sv unlock_script 1 [resource h; key h]
                     (server_eval env (sys_trace s1) sv unlock_script 1
                        [resource h; key h])])).
    destruct (IH s2) as (more & s' & Hlen' & Hmore).
    exists (stop_sched ++ Main :: more), s'.
    split; [rewrite length_app; simpl length; lia|].
    cbn [flat_map]. fold rest. rewrite <- app_assoc.
    rewrite ext_run_app.
    rewrite (ext_run_manager env ([Release sv (resource h) (key h)] ++ rest)
               stop_sched s s1 stop_expiry_extender [] Hstop).
    exact Hmore.
Qed.

(** ** The unlock script against the conditional set *)

(** X19: on a peer, the unlock script undoes the conditional set.  A
    [SET key val NX PX px] on a keyspace without the key, followed by the
    script with the same key and value, gives the keyspace back; with
    another value the script answers 0 and changes nothing. *)
Theorem unlock_script_undoes_the_set (st : gmap string (string * Z))
    (k v other : string) (px : Z) :
  st !! k = None ->
  0 < px ->
  peer_eval (snd (peer_set st k v NX px)) unlock_script 1 [k; v]
  = (Ret (PyInt 1), st) /\
  (other <> v ->
   peer_eval (snd (peer_set st k v NX px)) unlock_script 1 [k; other]
   = (Ret (PyInt 0), snd (peer_set st k v NX px))).
Proof.
  intros Hfree Hpx. unfold peer_set, store_set.
  destruct (px <=? 0) eqn:Hle; [apply Z.leb_le in Hle; lia|].
  rewrite Hfree. simpl. rewrite !peer_eval_unlock_script, lookup_insert_eq.
  split.
  - destruct (decide (v = v)); [|done]. by rewrite delete_insert_id.
  - intros Hne. by destruct (decide (v = other)).
Qed.

Lemma unlock_script_on_a_fresh_key :
  peer_eval (snd (peer_set ∅ "res" tok NX 10000)) unlock_script 1 ["res"; tok]
  = (Ret (PyInt 1), ∅).
Proof.
  apply (unlock_script_undoes_the_set ∅ "res" tok "other" 10000); [reflexivity | lia].
Defined.
